(** * chores.py: weekly chore assignment by rotation and agreeable swaps

    A shallow embedding of the pure core of [chores.py] and the properties
    of its exchange search ([seek_loop]), its improvement loop ([improve]),
    its cycle baseline ([get_from_current_cycle]), its history update
    ([add_to_history]) and the reconciliation of people and chores
    ([get_current_situation]); further of the table read from the sheet
    ([get_preferences]), the week and cycle of a day ([weekinfo]) and the
    plan of the week in [main]: the rotation at the start of a cycle, the
    bump of the weekly chores, and the improvement asked for.

    Modelling choices.
    - Names and chores are strings; the preference table is the dict of
      dicts [prefs[PERSON][CHORE]], a [gmap string (gmap string Q)].
    - Misery values are Python floats read from the sheet.  They are modelled
      as exact rationals ([Q]); the comparison [==] on them is [Qeq_bool] and
      the tolerance [1e-10] is the rational [1 # 10^10].
    - A Python exception is a [Raise e] result.  The recursion of [seek_loop]
      and the [while True] of [improve] are driven by a fuel argument;
      [OutOfFuel] is no behaviour of the program, only "not finished yet".
    - The sheet is given as its lines split at the tabs and [float] is a
      parameter; dates are compared for equality only, and [weekinfo] counts
      days from its epoch.  Reading and writing the history file, the
      prompts' text, the charts and the e-mail are not modelled. *)

From Stdlib Require Import QArith Qround Lqa.
From stdpp Require Import gmap strings list pretty.

Local Open Scope Q_scope.

(** ** Results of fallible code *)

Inductive exn : Set :=
| ValueError | KeyError | IndexError | ZeroDivisionError
| AssertionError | UnboundLocalError | EOFError.

Inductive result (A : Type) : Type :=
| Ok (a : A)
| Raise (e : exn)
| OutOfFuel.
Arguments Ok {A} a.
Arguments Raise {A} e.
Arguments OutOfFuel {A}.

#[global] Instance result_ret : MRet result := λ A a, Ok a.
#[global] Instance result_bind : MBind result := λ A B k m,
  match m with
  | Ok a => k a
  | Raise e => Raise e
  | OutOfFuel => OutOfFuel
  end.
#[global] Instance result_fmap : FMap result := λ A B f m,
  match m with
  | Ok a => Ok (f a)
  | Raise e => Raise e
  | OutOfFuel => OutOfFuel
  end.

Definition is_Ok {A} (r : result A) : Prop := ∃ a, r = Ok a.

(** ** Python list and dict primitives *)

(** [l.index(x)]: first position of [x], [ValueError] when absent. *)
Fixpoint index (x : string) (l : list string) : result nat :=
  match l with
  | [] => Raise ValueError
  | y :: l' => if decide (y = x) then Ok 0%nat else S <$> index x l'
  end.

(** [l[i]] for a non-negative [i]. *)
Definition getitem {A} (l : list A) (i : nat) : result A :=
  match l !! i with
  | Some a => Ok a
  | None => Raise IndexError
  end.

(** [l[i] = v] for a non-negative [i]. *)
Definition setitem {A} (l : list A) (i : nat) (v : A) : result (list A) :=
  if decide (i < length l)%nat then Ok (<[i:=v]> l) else Raise IndexError.

(** [x in l] on a list of strings. *)
Definition mem (x : string) (l : list string) : bool := bool_decide (x ∈ l).

(** [prefs[n][c]]. *)
Definition cost (prefs : gmap string (gmap string Q)) (n c : string) : result Q :=
  match prefs !! n with
  | None => Raise KeyError
  | Some row =>
      match row !! c with
      | None => Raise KeyError
      | Some p => Ok p
      end
  end.

(** The chore held by [n]: [chores[names.index(n)]]. *)
Definition holding (names chores : list string) (n : string) : result string :=
  i ← index n names; getitem chores i.

(** [prefs[n][e]] for an expression [e] that may fail: the row [prefs[n]] is
    looked up first, then [e] is evaluated, then the row is indexed. *)
Definition cost_at (prefs : gmap string (gmap string Q)) (n : string)
    (e : result string) : result Q :=
  match prefs !! n with
  | None => Raise KeyError
  | Some row =>
      c ← e;
      match row !! c with
      | None => Raise KeyError
      | Some p => Ok p
      end
  end.

(** ** Rational helpers *)

Definition eps : Q := 1 # 10000000000.

Definition Qlt_bool (a b : Q) : bool := negb (Qle_bool b a).

(** [sum(l)]: Python folds from the left, starting at 0. *)
Definition sumQ (l : list Q) : Q := fold_left Qplus l 0.

(** [np.argmax(l)]: the first position of a greatest element. *)
Fixpoint argmax_from (best : Q) (besti i : nat) (l : list Q) : nat :=
  match l with
  | [] => besti
  | x :: l' =>
      if Qlt_bool best x then argmax_from x i (S i) l'
      else argmax_from best besti (S i) l'
  end.

Definition argmax (l : list Q) : nat :=
  match l with
  | [] => 0%nat
  | x :: l' => argmax_from x 0 1 l'
  end.

(** ** seek_loop *)

Section SeekLoop.
Context (names chores : list string) (prefs : gmap string (gmap string Q)).
Context (largeloop : bool).

(** The comprehension building [desired_switches]: position [i] runs over
    [enumerate(chores)]; [excluded] is
    [[curr_person]+people_already_included[1:]] and [threshold] is
    [current_misery-1e-10*(improvement_so_far==0)]. *)
Fixpoint desired_switches (curr_person : string) (excluded : list string)
    (threshold : Q) (i : nat) (cs : list string) : result (list string) :=
  match cs with
  | [] => Ok []
  | c :: cs' =>
      ni ← getitem names i;
      keep ← (if mem ni excluded then Ok false
              else p ← cost prefs curr_person c; Ok (Qle_bool p threshold));
      rest ← desired_switches curr_person excluded threshold (S i) cs';
      Ok (if keep : bool then ni :: rest else rest)
  end.

(** The improvement of the branch once [curr_person] takes the chore of [n]. *)
Definition improvement_after (curr_person : string) (current_misery : Q)
    (improvement_so_far : Q) (n : string) : result Q :=
  p ← cost_at prefs curr_person (holding names chores n);
  Ok (improvement_so_far + current_misery - p).

(** The [for n in desired_switches] loop; [recurse n imp] stands for the
    recursive call [seek_loop(names,chores,prefs,n,
    people_already_included+[curr_person],imp,largeloop=largeloop)]. *)
Fixpoint possibilities (recurse : string → Q → result (option (list string * Q)))
    (curr_person : string) (people_already_included : list string)
    (current_misery improvement_so_far : Q) (ds : list string)
    : result (list (list string * Q)) :=
  match ds with
  | [] => Ok []
  | n :: ds' =>
      here ←
        (if bool_decide (people_already_included ≠ [])
            && bool_decide (head people_already_included = Some n)
         then
           imp ← improvement_after curr_person current_misery improvement_so_far n;
           Ok [(people_already_included ++ [curr_person], imp)]
         else if largeloop || bool_decide (people_already_included = [])
         then
           imp ← improvement_after curr_person current_misery improvement_so_far n;
           found ← recurse n imp;
           Ok (match found with
               | Some (p :: loop, g) => [(p :: loop, g)]
               | Some ([], _) | None => []
               end)
         else Ok []);
      rest ← possibilities recurse curr_person people_already_included
               current_misery improvement_so_far ds';
      Ok (here ++ rest)
  end.

(** [seek_loop]; [None] is the answer [False,0]. *)
Fixpoint seek_loop_fuel (fuel : nat) (curr_person : string)
    (people_already_included : list string) (improvement_so_far : Q)
    : result (option (list string * Q)) :=
  match fuel with
  | O => OutOfFuel
  | S fuel' =>
      i_name ← index curr_person names;
      current_misery ← cost_at prefs curr_person (getitem chores i_name);
      ds ← desired_switches curr_person
             (curr_person :: tail people_already_included)
             (current_misery
              - eps * (if Qeq_bool improvement_so_far 0 then 1 else 0))
             0 chores;
      ps ← possibilities
             (λ n imp, seek_loop_fuel fuel' n
                         (people_already_included ++ [curr_person]) imp)
             curr_person people_already_included
             current_misery improvement_so_far ds;
      match ps with
      | [] => Ok None
      | _ :: _ => Some <$> getitem ps (argmax (ps.*2))
      end
  end.

(** Every level of the recursion adds a name of [names] that the branch
    does not hold yet, so [S (length names)] levels are enough. *)
Definition seek_loop (curr_person : string)
    (people_already_included : list string) (improvement_so_far : Q)
    : result (option (list string * Q)) :=
  seek_loop_fuel (S (length names)) curr_person
    people_already_included improvement_so_far.
End SeekLoop.

(** ** misery *)

(** The generator [prefs[n][c] for n,c in zip(names,chores)]. *)
Fixpoint paired_costs (prefs : gmap string (gmap string Q))
    (names chores : list string) : result (list Q) :=
  match names, chores with
  | n :: names', c :: chores' =>
      p ← cost prefs n c;
      rest ← paired_costs prefs names' chores';
      Ok (p :: rest)
  | _, _ => Ok []
  end.

(** Total misery of an assignment, the numerator of [misery]. *)
Definition total_cost (names chores : list string)
    (prefs : gmap string (gmap string Q)) : result Q :=
  sumQ <$> paired_costs prefs names chores.

Definition misery (names chores : list string)
    (prefs : gmap string (gmap string Q)) : result Q :=
  total ← total_cost names chores prefs;
  if decide (length chores = 0%nat) then Raise ZeroDivisionError
  else Ok (total / inject_Z (Z.of_nat (length chores))).

(** ** improve *)

(** [sorted(l, key=...)] on already computed keys: a stable insertion sort,
    ascending in the key. *)
Fixpoint insert_by_key (x : string * Q) (l : list (string * Q))
    : list (string * Q) :=
  match l with
  | [] => [x]
  | y :: l' =>
      if Qlt_bool y.2 x.2 then y :: insert_by_key x l' else x :: y :: l'
  end.

Definition sort_by_key (l : list (string * Q)) : list (string * Q) :=
  foldr insert_by_key [] l.

(** One executed trade, as printed by [improve] ("Executing trade ..."),
    with the working assignment before and after it. *)
Record trade : Type := Trade {
  trade_asker : string;
  trade_loop : list string;
  trade_improvement : Q;
  trade_before : list string;
  trade_after : list string
}.

(** The local state of [improve] inside its loops; [st_trades] is the log
    of executed trades, which the program prints and does not keep. *)
Record improve_state : Type := ImproveState {
  st_chores : list string;
  st_historical_misery : list Q;
  st_made_trade : bool;
  st_trades : list trade
}.

Section Improve.
Context (names : list string) (prefs : gmap string (gmap string Q)).
Context (largeloop : bool).

(** [restricted_askers if restricted_askers else names]: [None] and the
    empty list are both falsy. *)
Definition askers (restricted_askers : option (list string)) : list string :=
  match restricted_askers with
  | Some (a :: r) => a :: r
  | Some [] | None => names
  end.

(** The key of [sorted]: [-prefs[n][chores[names.index(n)]]]. *)
Definition asking_key (chores : list string) (n : string) : result Q :=
  p ← cost_at prefs n (holding names chores n);
  Ok (- p).

Fixpoint asking_keys (chores : list string) (l : list string)
    : result (list (string * Q)) :=
  match l with
  | [] => Ok []
  | n :: l' =>
      k ← asking_key chores n;
      rest ← asking_keys chores l';
      Ok ((n, k) :: rest)
  end.

Definition asking_order (chores : list string)
    (restricted_askers : option (list string)) : result (list string) :=
  ks ← asking_keys chores (askers restricted_askers);
  Ok ((sort_by_key ks).*1).

(** [for nget,ngive in zip(loop[:-1],loop[1:]):
       chores[names.index(nget)]=chores[names.index(ngive)]] *)
Fixpoint pass_along (chores : list string) (pairs : list (string * string))
    : result (list string) :=
  match pairs with
  | [] => Ok chores
  | (nget, ngive) :: pairs' =>
      v ← holding names chores ngive;
      i ← index nget names;
      chores' ← setitem chores i v;
      pass_along chores' pairs'
  end.

(** The update of the chores list for a found loop, started by [n]. *)
Definition execute_trade (chores : list string) (n : string)
    (loop : list string) : result (list string) :=
  nchore ← holding names chores n;
  chores' ← pass_along chores (zip (removelast loop) (tail loop));
  l ← (match last loop with Some l => Ok l | None => Raise IndexError end);
  i ← index l names;
  setitem chores' i nchore.

(** The body of [for n in asking_order]. *)
Definition ask (n : string) (st : improve_state) : result improve_state :=
  found ← seek_loop names (st_chores st) prefs largeloop n [] 0;
  match found with
  | None | Some ([], _) => Ok st
  | Some (loop, improvement) =>
      chores' ← execute_trade (st_chores st) n loop;
      m ← misery names chores' prefs;
      Ok {| st_chores := chores';
            st_historical_misery := st_historical_misery st ++ [m];
            st_made_trade := true;
            st_trades := st_trades st ++
              [Trade n loop improvement (st_chores st) chores'] |}
  end.

Fixpoint improve_pass (order : list string) (st : improve_state)
    : result improve_state :=
  match order with
  | [] => Ok st
  | n :: order' => st' ← ask n st; improve_pass order' st'
  end.

(** [while True]: a pass with [made_trade] reset; stop when it stays
    [False]. *)
Fixpoint improve_loop (fuel : nat) (order : list string) (st : improve_state)
    : result improve_state :=
  match fuel with
  | O => OutOfFuel
  | S fuel' =>
      st' ← improve_pass order
              {| st_chores := st_chores st;
                 st_historical_misery := st_historical_misery st;
                 st_made_trade := false;
                 st_trades := st_trades st |};
      if st_made_trade st' then improve_loop fuel' order st' else Ok st'
  end.

(** [improve] up to its [return], with its whole local state. *)
Definition improve_run (fuel : nat) (chores : list string)
    (restricted_askers : option (list string)) : result improve_state :=
  order ← asking_order chores restricted_askers;
  m ← misery names chores prefs;
  improve_loop fuel order
    {| st_chores := chores; st_historical_misery := [m];
       st_made_trade := false; st_trades := [] |}.

Definition improve (fuel : nat) (chores : list string)
    (restricted_askers : option (list string)) : result (list string) :=
  st_chores <$> improve_run fuel chores restricted_askers.
End Improve.

(** ** History records *)

(** [datetime.date]: only compared for equality here. *)
Record date : Set := Date { year : Z; month : Z; day : Z }.

#[global] Instance date_eq_dec : EqDecision date.
Proof. solve_decision. Defined.

(** A Python dict of strings, as its items in insertion order. *)
Definition dict : Type := list (string * string).

(** [d[k]=v]: a known key keeps its place, a new key goes last. *)
Fixpoint dict_set (k v : string) (d : dict) : dict :=
  match d with
  | [] => [(k, v)]
  | (k', v') :: d' =>
      if decide (k' = k) then (k, v) :: d' else (k', v') :: dict_set k v d'
  end.

(** [dict(pairs)]. *)
Definition dict_of (pairs : list (string * string)) : dict :=
  fold_left (λ d kv, dict_set kv.1 kv.2 d) pairs [].

Definition history : Type := list (date * dict).

(** ** get_from_current_cycle *)

(** [pat in s] on strings. *)
Fixpoint contains (pat s : string) : bool :=
  String.prefix pat s ||
  match s with
  | EmptyString => false
  | String _ s' => contains pat s'
  end.

(** The loops that number the wildcards:
    [if chore=="Wild": nwild+=1; l[i]="Wild"+str(nwild)]. *)
Fixpoint tag_wild (nwild : nat) (l : list string) : list string :=
  match l with
  | [] => []
  | chore :: l' =>
      if decide (chore = "Wild"%string)
      then ("Wild" +:+ pretty (S nwild)) :: tag_wild (S nwild) l'
      else chore :: tag_wild nwild l'
  end.

(** [for h in reversed(hist): if h[0]==moncy: ... break]: the items of the
    latest record dated [moncy]. *)
Definition find_cycle_start (hist : history) (moncy : date) : option dict :=
  snd <$> head (filter (λ h, h.1 = moncy) (reverse hist)).

(** The targets [cc_names,cc_chores=...] take exactly two values; the
    starred [zip] of an empty list of pairs yields none. *)
Definition unzip_pairs (l : list (string * string))
    : result (list string * list string) :=
  match l with
  | [] => Raise ValueError
  | _ :: _ => Ok (l.*1, l.*2)
  end.

(** The [for name in names] loop that builds [new_chores]. *)
Fixpoint assign_baseline (cc_names cc_chores chores : list string)
    (names extra_chores new_chores : list string) : result (list string) :=
  match names with
  | [] => Ok new_chores
  | name :: names' =>
      keep ←
        (if mem name cc_names then
           i ← index name cc_names;
           cc_chore ← getitem cc_chores i;
           Ok (if mem cc_chore chores then Some cc_chore else None)
         else Ok None);
      match keep with
      | Some cc_chore =>
          assign_baseline cc_names cc_chores chores names'
            extra_chores (new_chores ++ [cc_chore])
      | None =>
          e ← getitem extra_chores 0;
          assign_baseline cc_names cc_chores chores names'
            (tail extra_chores) (new_chores ++ [e])
      end
  end.

(** [if "Wild" in chore: new_chores[i]="Wild"]. *)
Definition strip_wild (l : list string) : list string :=
  (λ chore, if contains "Wild" chore then "Wild"%string else chore) <$> l.

Definition get_from_current_cycle (hist : history) (moncy : date)
    (names chores : list string) : result (list string) :=
  match find_cycle_start hist moncy with
  | None => Raise AssertionError
  | Some items =>
      '(cc_names, cc_chores) ← unzip_pairs items;
      '(cc_names, cc_chores) ←
        unzip_pairs (filter (λ nc, nc.1 ∈ names) (zip cc_names cc_chores));
      let cc_chores := tag_wild 0 cc_chores in
      let chores := tag_wild 0 chores in
      let extra_chores := filter (λ chore, chore ∉ cc_chores) chores in
      new_chores ← assign_baseline cc_names cc_chores chores names extra_chores [];
      Ok (strip_wild new_chores)
  end.

(** ** add_to_history *)

(** The update of the [hist] object; the file is then rewritten from it,
    one line per record. *)
Definition add_to_history (hist : history) (mon : date)
    (names chores : list string) : history :=
  let record := (mon, dict_of (zip names chores)) in
  match last hist with
  | Some h =>
      if decide (h.1 = mon) then <[pred (length hist) := record]> hist
      else hist ++ [record]
  | None => hist ++ [record]
  end.

(** ** get_current_situation *)

(** Reading a local variable: [None] is a name that has no value yet. *)
Definition read_local {A} (v : option A) : result A :=
  match v with
  | Some a => Ok a
  | None => Raise UnboundLocalError
  end.

(** The two prompts.  [answers] are the lines typed by the user, each one
    already split at the commas and stripped; running out of them is the
    end of the input. *)
Fixpoint ask_out_of_town (all_names : list string) (answers : list (list string))
    : result (list string * list (list string)) :=
  match answers with
  | [] => Raise EOFError
  | oot :: answers' =>
      if forallb (λ name, mem name all_names) oot then Ok (oot, answers')
      else ask_out_of_town all_names answers'
  end.

Fixpoint ask_skip (all_chores : list string) (nskip : nat)
    (answers : list (list string)) : result (list string * list (list string)) :=
  match answers with
  | [] => Raise EOFError
  | sk :: answers' =>
      if forallb (λ chore, mem chore all_chores) sk
         && bool_decide (length sk = nskip)
      then Ok (sk, answers')
      else ask_skip all_chores nskip answers'
  end.

Definition get_current_situation (all_names all_chores : list string)
    (answers : list (list string)) : result (list string * list string) :=
  '(oot, answers) ← ask_out_of_town all_names answers;
  let names := filter (λ name, name ∉ oot) all_names in
  let lnames := length names in
  let lchores := length all_chores in
  (* the local [chores] is assigned in each branch below *)
  let chores : option (list string) := None in
  if decide (lnames = lchores) then
    (* print("Chores list is: "+", ".join(chores)) comes before
       chores=all_chores[:] *)
    shown ← read_local chores;
    Ok (names, all_chores)
  else if decide (lchores < lnames)%nat then
    Ok (names, all_chores ++ replicate (lnames - lchores) "Wild"%string)
  else
    '(sk, _) ← ask_skip all_chores (lchores - lnames) answers;
    Ok (names, filter (λ chore, chore ∉ sk) all_chores).

(** ** The baseline chosen by main *)

(** [deque(l).rotate(k)] for [0 <= k]: [k] steps to the right. *)
Definition rotate {A} (k : nat) (l : list A) : list A :=
  match l with
  | [] => []
  | _ :: _ =>
      let k := (k mod length l)%nat in
      drop (length l - k) l ++ take (length l - k) l
  end.

(** [chores.rotate(fourweekno % len(chores))]. *)
Definition fresh_cycle (chores : list string) (fourweekno : Z)
    : result (list string) :=
  if decide (length chores = 0%nat) then Raise ZeroDivisionError
  else Ok (rotate (Z.to_nat (fourweekno mod Z.of_nat (length chores))) chores).

(** The first branch of main: the baseline and [do_full_improvement].  The
    bare [except:] takes every exception of [get_from_current_cycle]. *)
Definition choose_baseline (hist : history) (moncy : date)
    (names chores : list string) (fourweekno weekno : Z)
    : result (list string * bool) :=
  if decide (weekno mod 4 = 0)%Z then
    chores' ← fresh_cycle chores fourweekno; Ok (chores', true)
  else
    match get_from_current_cycle hist moncy names chores with
    | Ok chores' => Ok (chores', false)
    | Raise _ => chores' ← fresh_cycle chores fourweekno; Ok (chores', true)
    | OutOfFuel => OutOfFuel
    end.

(** ** The weekly chores of a continuing cycle *)

(** The chores that move on every week. *)
Definition weekly_chores : list string := ["Wild"; "Lawn"; "Dishes"]%string.

(** [[i for (i,c) in enumerate(chores) if c==chore]], counting from [i]. *)
Fixpoint positions_from (i : nat) (chore : string) (chores : list string)
    : list nat :=
  match chores with
  | [] => []
  | c :: chores' =>
      if decide (c = chore) then i :: positions_from (S i) chore chores'
      else positions_from (S i) chore chores'
  end.

(** [if n not in sad: sad+=[n]]. *)
Definition add_sad (n : string) (sad : list string) : list string :=
  if mem n sad then sad else sad ++ [n].

(** [i2=(i+((weekno)%(len(chores)-1)+1))%len(chores)]; the step is first
    computed for the message that is printed. *)
Definition bump_target (weekno : Z) (len i : nat) : result nat :=
  if decide (Z.of_nat len - 1 = 0)%Z then Raise ZeroDivisionError
  else if decide (len = 0%nat) then Raise ZeroDivisionError
  else Ok (Z.to_nat ((Z.of_nat i + (weekno mod (Z.of_nat len - 1) + 1))
                     mod Z.of_nat len)).

(** The body of the inner loop, on the chores and the list [sad]. *)
Definition bump_at (names : list string) (weekno : Z) (chore : string)
    (i : nat) (st : list string * list string)
    : result (list string * list string) :=
  i2 ← bump_target weekno (length st.1) i;
  c2 ← getitem st.1 i2;
  chores1 ← setitem st.1 i c2;
  chores2 ← setitem chores1 i2 chore;
  ni ← getitem names i;
  ni2 ← getitem names i2;
  Ok (chores2, add_sad ni2 (add_sad ni st.2)).

(** The inner loop over the positions listed before it starts. *)
Fixpoint bump_all (names : list string) (weekno : Z) (chore : string)
    (positions : list nat) (st : list string * list string)
    : result (list string * list string) :=
  match positions with
  | [] => Ok st
  | i :: positions' =>
      st' ← bump_at names weekno chore i st;
      bump_all names weekno chore positions' st'
  end.

(** The outer loop [for chore in ...]. *)
Fixpoint bump_chores (names : list string) (weekno : Z) (weekly : list string)
    (st : list string * list string) : result (list string * list string) :=
  match weekly with
  | [] => Ok st
  | chore :: weekly' =>
      st' ← bump_all names weekno chore (positions_from 0 chore st.1) st;
      bump_chores names weekno weekly' st'
  end.

(** The bump of main: the chores after it and the disturbed people. *)
Definition weekly_bump (names : list string) (weekno : Z)
    (chores : list string) : result (list string * list string) :=
  bump_chores names weekno weekly_chores (chores, []).

(** ** The plan of the week *)

(** main from the baseline to the "initial condition": the chores, whether a
    full improvement follows, and the disturbed people (none are collected
    when a cycle starts). *)
Definition initial_condition (hist : history) (moncy : date)
    (names chores : list string) (fourweekno weekno : Z)
    : result (list string * bool * list string) :=
  if decide (weekno mod 4 = 0)%Z then
    chores' ← fresh_cycle chores fourweekno; Ok (chores', true, [])
  else
    '(base, full) ← choose_baseline hist moncy names chores fourweekno weekno;
    '(chores', sad) ← weekly_bump names weekno base;
    Ok (chores', full, sad).

(** The optimisation asked for: everything, or pairwise swaps started by the
    disturbed people. *)
Definition optimise (names : list string) (prefs : gmap string (gmap string Q))
    (fuel : nat) (chores : list string) (full : bool) (sad : list string)
    : result (list string) :=
  if full then improve names prefs true fuel chores None
  else improve names prefs false fuel chores (Some sad).

(** main from the week's people and chores to the final assignment. *)
Definition week_plan (names : list string) (prefs : gmap string (gmap string Q))
    (fuel : nat) (hist : history) (moncy : date) (chores : list string)
    (fourweekno weekno : Z) : result (list string) :=
  '(chores', full, sad) ←
    initial_condition hist moncy names chores fourweekno weekno;
  optimise names prefs fuel chores' full sad.

(** ** weekinfo *)

(** [weekinfo], with days counted from the epoch, the Monday 2018-01-08:
    [today] is [(today-epoch).days], and the two dates returned are given
    the same way, [mon] as [7*weekno] and [moncy] as [7*4*fourweekno].
    The quotients [days/28] and [days/7] are computed in floating point and
    rounded down by [np.floor]; for the day counts of [datetime.date] this
    is the integer quotient rounded down. *)
Definition weekinfo (today : Z) : Z * Z * Z * Z :=
  let fourweekno := (today / (4 * 7))%Z in
  let weekno := (today / 7)%Z in
  let mon := (7 * weekno)%Z in
  let moncy := (7 * 4 * fourweekno)%Z in
  (fourweekno, weekno, mon, moncy).

(** ** get_preferences *)

(** A line of the sheet split at the tabs: its first cell and the others
    ([split] never gives an empty list). *)
Definition sheet_row : Type := string * list string.

Section Preferences.
(** [float(s)] is a parameter: a rational, [None] for the floats that are no
    numbers ([nan], [inf]), or a [ValueError]. *)
Context (float : string → result (option Q)).

(** [assert p>=1 and p<=(len(data))]; it fails for [nan] and [inf]. *)
Definition valid_misery (ndata : nat) (p : option Q) : result Q :=
  match p with
  | Some p =>
      if Qle_bool 1 p && Qle_bool p (inject_Z (Z.of_nat ndata)) then Ok p
      else Raise AssertionError
  | None => Raise AssertionError
  end.

(** The inner loop [for r in data] for the person in column [1+i]. *)
Fixpoint fill_row (ndata i : nat) (data : list sheet_row)
    (row : gmap string Q) : result (gmap string Q) :=
  match data with
  | [] => Ok row
  | r :: data' =>
      cell ← getitem r.2 i;
      p ← float cell;
      p ← valid_misery ndata p;
      fill_row ndata i data' (<[r.1:=p]> row)
  end.

(** The outer loop [for i,n in enumerate(all_names)], from column [1+i]. *)
Fixpoint fill_prefs (data : list sheet_row) (i : nat) (all_names : list string)
    (prefs : gmap string (gmap string Q))
    : result (gmap string (gmap string Q)) :=
  match all_names with
  | [] => Ok prefs
  | n :: all_names' =>
      row ← fill_row (length data) i data ∅;
      fill_prefs data (S i) all_names' (<[n:=row]> prefs)
  end.

(** [get_preferences] from the lines of the sheet, decoded and split at the
    tabs. *)
Definition get_preferences (lines : list sheet_row)
    : result (list string * list string * gmap string (gmap string Q)) :=
  match lines with
  | [] => Raise IndexError
  | header :: rest =>
      let data := filter (λ r : sheet_row, r.1 ≠ ""%string) rest in
      let all_names := header.2 in
      let all_chores := filter (λ c, c ≠ "Wild"%string) (data.*1) in
      prefs ← fill_prefs data 0 all_names ∅;
      Ok (all_names, all_chores, prefs)
  end.
End Preferences.

(** A [float] for sheets of one-digit numbers. *)
Definition float_digit (s : string) : result (option Q) :=
  match s with
  | String a EmptyString =>
      let n := (Z.of_N (Ascii.N_of_ascii a) - 48)%Z in
      if decide (0 ≤ n ≤ 9)%Z then Ok (Some (inject_Z n)) else Raise ValueError
  | _ => Raise ValueError
  end.

(** ** Sample data *)

(** A preference table from its rows. *)
Definition mk_prefs (rows : list (string * list (string * Q)))
    : gmap string (gmap string Q) :=
  list_to_map (prod_map id list_to_map <$> rows).

Definition abc_prefs : gmap string (gmap string Q) :=
  mk_prefs [("A", [("IA", 3); ("IB", 1); ("IC", 2)]);
            ("B", [("IA", 2); ("IB", 3); ("IC", 1)]);
            ("C", [("IA", 1); ("IB", 2); ("IC", 3)])]%string.

Definition abc_names : list string := ["A"; "B"; "C"]%string.
Definition abc_chores : list string := ["IA"; "IB"; "IC"]%string.

(** A sheet of two people and two data lines, with a line left out for its
    empty first cell, and the table read from it. *)
Definition sample_sheet : list sheet_row :=
  [("", ["A"; "B"]); ("X", ["1"; "2"]); ("", ["9"; "9"]);
   ("Wild", ["2"; "1"])]%string.

Definition sample_prefs : gmap string (gmap string Q) :=
  mk_prefs [("A", [("X", 1); ("Wild", 2)]);
            ("B", [("X", 2); ("Wild", 1)])]%string.

(** A names list that is no assignment: B stands twice. *)
Definition twice_prefs : gmap string (gmap string Q) :=
  mk_prefs [("A", [("X", 2); ("Y", 3); ("Z", 1)]);
            ("B", [("X", 1); ("Y", 1); ("Z", 5)])]%string.

Definition twice_names : list string := ["A"; "B"; "B"]%string.
Definition twice_chores : list string := ["X"; "Y"; "Z"]%string.

(** ** Steps and gains of a loop *)

(** The steps [u -> v] of a loop: each person takes the chore of the next,
    the last one that of the first. *)
Definition path_steps (s : string) (l : list string) : list (string * string) :=
  zip l (tail l ++ [s]).

Definition cycle_steps (loop : list string) : list (string * string) :=
  match loop with
  | [] => []
  | s :: _ => path_steps s loop
  end.

Section Gains.
Context (names chores : list string) (prefs : gmap string (gmap string Q)).

(** [cost(u, item_v)]: the misery of [u] for the chore that [v] holds. *)
Definition cost_of_swap (u v : string) : result Q :=
  c ← holding names chores v; cost prefs u c.

(** [cost(u, item_u) - cost(u, item_v)]. *)
Definition step_gain (uv : string * string) : result Q :=
  cu ← cost_of_swap uv.1 uv.1;
  cv ← cost_of_swap uv.1 uv.2;
  Ok (cu - cv).

Fixpoint gains_of (steps : list (string * string)) : result (list Q) :=
  match steps with
  | [] => Ok []
  | uv :: steps' =>
      g ← step_gain uv;
      gs ← gains_of steps';
      Ok (g :: gs)
  end.
End Gains.

(** A branch that accepts each step: never a loss, and a gain of at least
    [eps] while nothing is banked. *)
Fixpoint banked_ok (banked : Q) (gs : list Q) : Prop :=
  match gs with
  | [] => True
  | g :: gs' => 0 <= g ∧ (banked == 0 → eps <= g) ∧ banked_ok (banked + g) gs'
  end.

(** ** Vocabulary of the properties *)


Section RunVocabulary.
Context (names : list string) (prefs : gmap string (gmap string Q)).
Context (largeloop : bool).



(** [seek_loop] from [n] on [chores] comes back without a loop. *)
Definition quiet (chores : list string) (n : string) : Prop :=
  ∃ found, seek_loop names chores prefs largeloop n [] 0 = Ok found ∧
           match found with Some (_ :: _, _) => False | _ => True end.

(** The misery of the working assignment can be computed. *)
Definition misery_defined (st : improve_state) : Prop :=
  is_Ok (misery names (st_chores st) prefs).

Context (chores0 : list string).

End RunVocabulary.

(** The preference table has a misery for every person and chore at hand. *)
Definition covers (prefs : gmap string (gmap string Q))
    (names chores : list string) : Prop :=
  ∀ n c, n ∈ names → c ∈ chores → is_Ok (cost prefs n c).




(** The chore that [name] keeps from the cycle start, if any: the one it
    had there, when that one is among the chores of the week. *)
Definition kept (cc_names cc_chores chores : list string) (name : string)
    : option string :=
  match index name cc_names with
  | Ok i =>
      match cc_chores !! i with
      | Some c => if mem c chores then Some c else None
      | None => None
      end
  | _ => None
  end.

(** A computation that came to an end, with a value or an exception. *)
Definition finished {A} (r : result A) : Prop := r ≠ OutOfFuel.

(** What the weekly bump may do to the chores and the list [sad]: the
    chores are rearranged, [sad] only grows, by people of [names] and without
    repeats, and whoever is at a place whose chore changed is in it. *)
Definition bumped (names : list string) (st st' : list string * list string)
    : Prop :=
  st'.1 ≡ₚ st.1 ∧
  (NoDup st.2 → NoDup st'.2) ∧
  (∀ n, n ∈ st.2 → n ∈ st'.2) ∧
  (∀ n, n ∈ st'.2 → n ∈ st.2 ∨ n ∈ names) ∧
  (∀ k, st'.1 !! k = st.1 !! k ∨ ∃ n, names !! k = Some n ∧ n ∈ st'.2).

(** Keys in ascending order. *)
Fixpoint ascending (l : list (string * Q)) : Prop :=
  match l with
  | [] => True
  | x :: l' => Forall (λ y, x.2 <= y.2) l' ∧ ascending l'
  end.

(** * Properties *)

(** ** The result monad *)

Lemma bind_Ok {A B} (m : result A) (k : A → result B) (b : B) :
  m ≫= k = Ok b ↔ ∃ a, m = Ok a ∧ k a = Ok b.
Proof.
  destruct m as [a| |]; simpl; split.
  - intros H. exists a. done.
  - by intros (a' & [= ->] & H).
  - done.
  - by intros (a' & [=] & _).
  - done.
  - by intros (a' & [=] & _).
Qed.

Lemma ret_bind {A B} (a : A) (k : A → result B) : Ok a ≫= k = k a.
Proof. done. Qed.

Lemma fmap_Ok {A B} (f : A → B) (m : result A) (b : B) :
  f <$> m = Ok b ↔ ∃ a, m = Ok a ∧ b = f a.
Proof.
  destruct m as [a| |]; simpl; split.
  - intros [= <-]. by exists a.
  - by intros (a' & [= ->] & ->).
  - done.
  - by intros (a' & [=] & _).
  - done.
  - by intros (a' & [=] & _).
Qed.

(** ** Lists *)

Lemma index_Ok x l i : index x l = Ok i → l !! i = Some x.
Proof.
  revert i. induction l as [|y l IH]; intros i H; simpl in H; [done|].
  destruct (decide (y = x)) as [->|Hne].
  - by injection H as <-.
  - apply fmap_Ok in H as (j & Hj & ->). simpl. by apply IH.
Qed.

Lemma index_of_lookup x l i : NoDup l → l !! i = Some x → index x l = Ok i.
Proof.
  intros Hnd. revert i. induction Hnd as [|y l Hy Hnd IH]; intros i Hi; [done|].
  simpl. destruct i as [|i]; simpl in Hi.
  - injection Hi as ->. by rewrite decide_True.
  - rewrite decide_False.
    + by rewrite (IH i Hi).
    + intros ->. apply Hy. by eapply list_elem_of_lookup_2.
Qed.

Lemma index_of_elem x l : x ∈ l → ∃ i, index x l = Ok i.
Proof.
  induction l as [|y l IH]; intros Hx; [by apply elem_of_nil in Hx|].
  simpl. destruct (decide (y = x)) as [->|Hne]; [by eexists|].
  apply elem_of_cons in Hx as [->|Hx]; [done|].
  destruct (IH Hx) as [i ->]. by eexists.
Qed.

Lemma index_elem x l i : index x l = Ok i → x ∈ l.
Proof. intros H. apply index_Ok in H. by eapply list_elem_of_lookup_2. Qed.

Lemma index_inj x y l i : index x l = Ok i → index y l = Ok i → x = y.
Proof. intros Hx%index_Ok Hy%index_Ok. congruence. Qed.

Lemma getitem_Ok {A} (l : list A) i a : getitem l i = Ok a ↔ l !! i = Some a.
Proof. unfold getitem. destruct (l !! i); split; congruence. Qed.

Lemma setitem_Ok {A} (l : list A) i v l' :
  setitem l i v = Ok l' ↔ (i < length l)%nat ∧ l' = <[i:=v]> l.
Proof.
  unfold setitem. destruct (decide (i < length l)%nat); split.
  - by intros [= <-].
  - by intros [_ ->].
  - done.
  - by intros [? _].
Qed.

Lemma holding_Ok names chores n c :
  holding names chores n = Ok c ↔
  ∃ i, index n names = Ok i ∧ chores !! i = Some c.
Proof.
  unfold holding. rewrite bind_Ok. by setoid_rewrite getitem_Ok.
Qed.

Lemma cost_at_Ok prefs n (e : result string) p :
  cost_at prefs n e = Ok p ↔ ∃ c, e = Ok c ∧ cost prefs n c = Ok p.
Proof.
  unfold cost_at, cost. destruct (prefs !! n) as [row|].
  - by rewrite bind_Ok.
  - split; [done|]. by intros (c & _ & ?).
Qed.

Lemma cost_at_of_Ok prefs n (e : result string) c p :
  e = Ok c → cost prefs n c = Ok p → cost_at prefs n e = Ok p.
Proof. intros He Hp. apply cost_at_Ok. by exists c. Qed.

Lemma holding_of_lookup names chores n c i :
  NoDup names → names !! i = Some n → chores !! i = Some c →
  holding names chores n = Ok c.
Proof.
  intros Hnd Hn Hc. apply holding_Ok. exists i. split; [|done].
  by apply index_of_lookup.
Qed.

(** ** Sums of rationals *)

Lemma fold_left_Qplus (l : list Q) (a : Q) :
  fold_left Qplus l a == a + fold_left Qplus l 0.
Proof.
  revert a. induction l as [|x l IH]; intros a; simpl; [lra|].
  pose proof (IH (a + x)). pose proof (IH (0 + x)). lra.
Qed.

Lemma sumQ_nil : sumQ [] == 0.
Proof. reflexivity. Qed.

Lemma sumQ_cons (x : Q) (l : list Q) : sumQ (x :: l) == x + sumQ l.
Proof.
  unfold sumQ. simpl. pose proof (fold_left_Qplus l (0 + x)). lra.
Qed.


Lemma eps_pos : 0 < eps.
Proof. reflexivity. Qed.

Lemma Qlt_bool_iff (a b : Q) : Qlt_bool a b = true ↔ a < b.
Proof.
  unfold Qlt_bool. rewrite negb_true_iff.
  destruct (Qle_bool b a) eqn:E.
  - apply Qle_bool_iff in E. split; [done|]. intros ?. lra.
  - split; [|done]. intros _. apply Qnot_le_lt. intros Hle.
    apply Qle_bool_iff in Hle. congruence.
Qed.



(** ** seek_loop: what a returned loop looks like *)

Lemma banked_ok_Qeq (b b' : Q) (gs : list Q) :
  b == b' → banked_ok b gs → banked_ok b' gs.
Proof.
  revert b b'. induction gs as [|g gs IH]; intros b b' Hb; simpl; [done|].
  intros (Hg & Hstrict & Hrest). split; [done|]. split.
  - intros Hz. apply Hstrict. lra.
  - eapply IH; [|done]. lra.
Qed.

Section SeekLoopFacts.
Context (names chores : list string) (prefs : gmap string (gmap string Q)).
Context (largeloop : bool).

Lemma desired_switches_elem curr excl th i cs ds n :
  desired_switches names prefs curr excl th i cs = Ok ds → n ∈ ds →
  ∃ j c p, names !! (i + j)%nat = Some n ∧ cs !! j = Some c ∧ (n ∉ excl) ∧
           cost prefs curr c = Ok p ∧ (p <= th).
Proof.
  revert i ds. induction cs as [|c cs IH]; intros i ds H Hn; simpl in H.
  - injection H as <-. by apply elem_of_nil in Hn.
  - apply bind_Ok in H as (ni & Hni & H).
    apply bind_Ok in H as (keep & Hkeep & H).
    apply bind_Ok in H as (rest & Hrest & H).
    injection H as <-.
    assert (n ∈ rest → ∃ j c' p, names !! (i + j)%nat = Some n ∧
              (c :: cs) !! j = Some c' ∧ (n ∉ excl) ∧
              cost prefs curr c' = Ok p ∧ (p <= th)) as Hlater.
    { intros Hin. destruct (IH _ _ Hrest Hin) as (j & c' & p & Hj & Hc & Hmore).
      exists (S j), c', p. split; [|done].
      by replace (i + S j)%nat with (S i + j)%nat by lia. }
    destruct keep; [|by apply Hlater].
    apply elem_of_cons in Hn as [->|Hn]; [|by apply Hlater].
    apply getitem_Ok in Hni. unfold mem in Hkeep.
    destruct (bool_decide (ni ∈ excl)) eqn:Hex; [done|].
    apply bool_decide_eq_false in Hex.
    apply bind_Ok in Hkeep as (p & Hp & Hkeep). injection Hkeep as Hkeep.
    exists 0%nat, c, p. rewrite Nat.add_0_r.
    repeat split; [done..|]. by apply Qle_bool_iff.
Qed.

Lemma possibilities_elem recurse curr incl m imp ds ps p :
  possibilities names chores prefs largeloop recurse curr incl m imp ds = Ok ps →
  p ∈ ps →
  ∃ n imp', n ∈ ds ∧
    improvement_after names chores prefs curr m imp n = Ok imp' ∧
    ((head incl = Some n ∧ p = (incl ++ [curr], imp')) ∨
     (head incl ≠ Some n ∧ recurse n imp' = Ok (Some p))).
Proof.
  revert ps. induction ds as [|n ds IH]; intros ps H Hp; simpl in H.
  - injection H as <-. by apply elem_of_nil in Hp.
  - apply bind_Ok in H as (here & Hhere & H).
    apply bind_Ok in H as (rest & Hrest & H).
    injection H as <-. apply elem_of_app in Hp as [Hp|Hp].
    + clear IH Hrest.
      assert (head incl ≠ Some n →
              (if largeloop || bool_decide (incl = [])
               then imp' ← improvement_after names chores prefs curr m imp n;
                    found ← recurse n imp';
                    Ok (match found with
                        | Some (p :: loop, g) => [(p :: loop, g)]
                        | Some ([], _) | None => []
                        end)
               else Ok []) = Ok here →
              ∃ n0 imp', n0 ∈ n :: ds ∧
                improvement_after names chores prefs curr m imp n0 = Ok imp' ∧
                ((head incl = Some n0 ∧ p = (incl ++ [curr], imp')) ∨
                 (head incl ≠ Some n0 ∧ recurse n0 imp' = Ok (Some p))))
        as Hsecond.
      { intros Hne Hh. destruct (largeloop || bool_decide (incl = [])).
        - apply bind_Ok in Hh as (imp' & Himp & Hh).
          apply bind_Ok in Hh as (found & Hfound & Hh).
          injection Hh as <-. destruct found as [[[|p0 loop] g]|].
          + by apply elem_of_nil in Hp.
          + apply list_elem_of_singleton in Hp as ->.
            exists n, imp'. split; [left|]. split; [done|]. by right.
          + by apply elem_of_nil in Hp.
        - injection Hh as <-. by apply elem_of_nil in Hp. }
      destruct (bool_decide (incl ≠ [])) eqn:E1;
        destruct (bool_decide (head incl = Some n)) eqn:E2; cbn [andb] in Hhere.
      * apply bool_decide_eq_true in E2.
        apply bind_Ok in Hhere as (imp' & Himp & Hhere). injection Hhere as <-.
        apply list_elem_of_singleton in Hp as ->.
        exists n, imp'. split; [left|]. split; [done|]. by left.
      * apply bool_decide_eq_false in E2. by apply Hsecond.
      * apply bool_decide_eq_false in E1. apply dec_stable in E1. subst incl.
        by apply bool_decide_eq_true in E2.
      * apply bool_decide_eq_false in E2. by apply Hsecond.
    + destruct (IH _ Hrest Hp) as (n' & imp' & Hn' & Himp & Hcase).
      exists n', imp'. split; [by right|]. done.
Qed.

Hypothesis names_NoDup : NoDup names.

Lemma seek_loop_fuel_sound fuel curr incl imp loop g :
  seek_loop_fuel names chores prefs largeloop fuel curr incl imp
    = Ok (Some (loop, g)) →
  NoDup (incl ++ [curr]) →
  ∃ rest gs,
    loop = incl ++ curr :: rest ∧ NoDup loop ∧
    gains_of names chores prefs
      (path_steps (default curr (head incl)) (curr :: rest)) = Ok gs ∧
    g == imp + sumQ gs ∧ banked_ok imp gs.
Proof.
  revert curr incl imp loop g.
  induction fuel as [|fuel IH]; intros curr incl imp loop g H Hnd; [done|].
  simpl in H.
  apply bind_Ok in H as (i_name & Hi_name & H).
  apply bind_Ok in H as (m & Hm & H).
  apply cost_at_Ok in Hm as (c0 & Hc0 & Hm).
  apply bind_Ok in H as (ds & Hds & H).
  apply bind_Ok in H as (ps & Hps & H).
  assert (holding names chores curr = Ok c0) as Hcurr.
  { apply holding_Ok. exists i_name. split; [done|]. by apply getitem_Ok. }
  assert (cost_of_swap names chores prefs curr curr = Ok m) as Hcc.
  { unfold cost_of_swap. by rewrite Hcurr. }
  assert ((loop, g) ∈ ps) as Hp.
  { destruct ps as [|p0 ps]; [done|].
    apply fmap_Ok in H as (p & Hp & [= <-]). apply getitem_Ok in Hp.
    by eapply list_elem_of_lookup_2. }
  destruct (possibilities_elem _ _ _ _ _ _ _ _ Hps Hp)
    as (n & imp' & Hn & Himp & Hcase).
  destruct (desired_switches_elem _ _ _ _ _ _ _ Hds Hn)
    as (j & c & q & Hj & Hc & Hex & Hq & Hle).
  simpl in Hj.
  pose proof (holding_of_lookup _ _ _ _ _ names_NoDup Hj Hc) as Hhn.
  unfold improvement_after in Himp.
  rewrite (cost_at_of_Ok _ _ _ _ _ Hhn Hq), ret_bind in Himp.
  injection Himp as <-.
  assert (step_gain names chores prefs (curr, n) = Ok (m - q)) as Hstep.
  { unfold step_gain. simpl. rewrite Hcc. simpl.
    unfold cost_of_swap. rewrite Hhn. simpl. by rewrite Hq. }
  assert (0 <= m - q ∧ (imp == 0 → eps <= m - q)) as [Hge Hstrict].
  { destruct (Qeq_bool imp 0) eqn:E.
    - split; [pose proof eps_pos; lra|]. intros _. lra.
    - split; [lra|]. intros Hz. apply Qeq_bool_iff in Hz. congruence. }
  destruct Hcase as [[Hhead [= -> ->]]|[Hhead Hrec]].
  - exists [], [m - q]. rewrite Hhead. simpl.
    split; [done|]. split; [done|].
    unfold path_steps. simpl. rewrite Hstep. simpl.
    split; [done|]. split; [|done].
    rewrite sumQ_cons, sumQ_nil. lra.
  - assert (n ∉ incl ++ [curr]) as Hfresh.
    { intros Hin. apply elem_of_app in Hin as [Hin|Hin].
      - destruct incl as [|s incl]; [by apply elem_of_nil in Hin|].
        apply elem_of_cons in Hin as [->|Hin]; [done|].
        apply Hex. by right.
      - apply list_elem_of_singleton in Hin as ->. apply Hex. by left. }
    apply IH in Hrec as (rest & gs & -> & Hnd' & Hgs & Hg & Hok).
    2:{ apply NoDup_app. split; [done|]. split; [|apply NoDup_singleton].
        intros x Hx Hx'. apply list_elem_of_singleton in Hx' as ->. done. }
    exists (n :: rest), ((m - q) :: gs).
    split; [by rewrite <- app_assoc|].
    split; [done|].
    assert (default n (head (incl ++ [curr])) = default curr (head incl)) as Hs.
    { by destruct incl. }
    rewrite Hs in Hgs. unfold path_steps in *. simpl in *.
    rewrite Hstep. simpl. rewrite Hgs. simpl.
    split; [done|]. split; [rewrite sumQ_cons; lra|].
    split; [done|]. split; [done|].
    eapply banked_ok_Qeq; [|done]. lra.
Qed.
End SeekLoopFacts.

Lemma banked_ok_nonneg (b : Q) (gs : list Q) : banked_ok b gs → 0 <= sumQ gs.
Proof.
  revert b. induction gs as [|g gs IH]; intros b; simpl.
  - intros _. rewrite sumQ_nil. lra.
  - intros (Hg & _ & Hrest). rewrite sumQ_cons. apply IH in Hrest. lra.
Qed.

Lemma banked_ok_first (gs : list Q) :
  gs ≠ [] → banked_ok 0 gs → eps <= sumQ gs.
Proof.
  destruct gs as [|g gs]; [done|]. intros _ (Hg & Hstrict & Hrest).
  rewrite sumQ_cons. apply banked_ok_nonneg in Hrest.
  assert (eps <= g) by (apply Hstrict; lra). lra.
Qed.

Lemma banked_ok_lookup (b : Q) (gs : list Q) (k : nat) (g : Q) :
  banked_ok b gs → 0 <= b → gs !! k = Some g →
  0 <= g ∧ (g == 0 → 0 < b + sumQ (take k gs)).
Proof.
  revert b k. induction gs as [|g0 gs IH]; intros b k Hok Hb Hk; [done|].
  destruct Hok as (Hg & Hstrict & Hrest). destruct k as [|k]; simpl in *.
  - injection Hk as ->. split; [done|]. intros Hz. rewrite sumQ_nil.
    destruct (Qeq_dec b 0) as [Hb0|Hb0].
    + apply Hstrict in Hb0. pose proof eps_pos. lra.
    + lra.
  - destruct (IH (b + g0) k Hrest ltac:(lra) Hk) as [Hg' Hbank].
    split; [done|]. intros Hz. rewrite sumQ_cons. apply Hbank in Hz. lra.
Qed.

Lemma gains_of_lookup names chores prefs steps gs k u v :
  gains_of names chores prefs steps = Ok gs → steps !! k = Some (u, v) →
  ∃ cu cv, cost_of_swap names chores prefs u u = Ok cu ∧
           cost_of_swap names chores prefs u v = Ok cv ∧
           gs !! k = Some (cu - cv).
Proof.
  revert gs k. induction steps as [|uv steps IH]; intros gs k H Hk; [done|].
  simpl in H. apply bind_Ok in H as (g & Hg & H).
  apply bind_Ok in H as (gs' & Hgs' & H). injection H as <-.
  destruct k as [|k]; simpl in Hk.
  - injection Hk as ->. unfold step_gain in Hg. simpl in Hg.
    apply bind_Ok in Hg as (cu & Hcu & Hg).
    apply bind_Ok in Hg as (cv & Hcv & Hg). injection Hg as <-.
    by exists cu, cv.
  - simpl. by eapply IH.
Qed.

Lemma gains_of_length names chores prefs steps gs :
  gains_of names chores prefs steps = Ok gs → length gs = length steps.
Proof.
  revert gs. induction steps as [|uv steps IH]; intros gs H; simpl in H.
  - by injection H as <-.
  - apply bind_Ok in H as (g & Hg & H).
    apply bind_Ok in H as (gs' & Hgs' & H). injection H as <-.
    simpl. by rewrite (IH gs').
Qed.

(** A loop found from [s] starts with [s], repeats nobody, and its
    improvement is the sum of the gains of its steps, each of them accepted
    by the branch; the first gain is at least [eps]. *)
Lemma seek_loop_gains
    (names chores : list string) (prefs : gmap string (gmap string Q))
    (largeloop : bool) (s : string) (loop : list string) (imp : Q) :
  NoDup names →
  seek_loop names chores prefs largeloop s [] 0 = Ok (Some (loop, imp)) →
  NoDup loop ∧ head loop = Some s ∧ 0 < imp ∧ eps <= imp ∧
  ∃ gs, gains_of names chores prefs (cycle_steps loop) = Ok gs ∧
        imp == sumQ gs ∧ banked_ok 0 gs.
Proof.
  intros Hnd H. unfold seek_loop in H.
  apply seek_loop_fuel_sound in H as (rest & gs & -> & Hloop & Hgs & Himp & Hok);
    [|done|apply NoDup_singleton].
  simpl in *.
  assert (gs ≠ []) as Hne.
  { apply gains_of_length in Hgs. unfold path_steps in Hgs.
    destruct gs; [|done]. simpl in Hgs.
    destruct (rest ++ [s]) eqn:E; [by destruct rest|done]. }
  pose proof (banked_ok_first _ Hne Hok) as Hfirst. pose proof eps_pos.
  split; [done|]. split; [done|]. split; [lra|]. split; [lra|].
  exists gs. split; [done|]. split; [lra|done].
Qed.


(** ** Executing a trade *)


Section Trades.
Context (names : list string) (prefs : gmap string (gmap string Q)).
Hypothesis names_NoDup : NoDup names.




Lemma holding_insert_ne cur i u c w :
  index u names = Ok i → w ≠ u →
  holding names (<[i:=c]> cur) w = holding names cur w.
Proof.
  intros Hu Hne. unfold holding.
  destruct (index w names) as [j| |] eqn:Hw; [|done..]. simpl.
  unfold getitem. rewrite list_lookup_insert_ne; [done|].
  intros ->. apply Hne. by eapply index_inj.
Qed.


End Trades.

(** ** improve: the executed trades *)


Section ImproveFacts.
Context (names : list string) (prefs : gmap string (gmap string Q)).
Context (largeloop : bool).


(** The two ways through the body of the [for] loop. *)
Lemma ask_Ok n st st' :
  ask names prefs largeloop n st = Ok st' →
  (st' = st ∧
   ∃ found, seek_loop names (st_chores st) prefs largeloop n [] 0 = Ok found ∧
            match found with Some (_ :: _, _) => False | _ => True end) ∨
  (∃ loop imp chores' m,
     loop ≠ [] ∧
     seek_loop names (st_chores st) prefs largeloop n [] 0
       = Ok (Some (loop, imp)) ∧
     execute_trade names (st_chores st) n loop = Ok chores' ∧
     misery names chores' prefs = Ok m ∧
     st' = {| st_chores := chores';
              st_historical_misery := st_historical_misery st ++ [m];
              st_made_trade := true;
              st_trades := st_trades st ++
                [Trade n loop imp (st_chores st) chores'] |}).
Proof.
  unfold ask. intros (found & Hfound & H)%bind_Ok.
  destruct found as [[[|p loop] imp]|].
  - left. injection H as <-. split; [done|]. by eexists.
  - right. apply bind_Ok in H as (chores' & Hex & H).
    apply bind_Ok in H as (m & Hm & H). injection H as <-.
    by exists (p :: loop), imp, chores', m.
  - left. injection H as <-. split; [done|]. by eexists.
Qed.

Hypothesis names_NoDup : NoDup names.





End ImproveFacts.


(** ** improve: the last pass and the fixpoint *)

Lemma insert_by_key_elem (x y : string * Q) (l : list (string * Q)) :
  y ∈ insert_by_key x l ↔ y = x ∨ y ∈ l.
Proof.
  induction l as [|z l IH]; simpl.
  - rewrite list_elem_of_singleton, elem_of_nil. tauto.
  - destruct (Qlt_bool z.2 x.2); rewrite !elem_of_cons; [rewrite IH|]; tauto.
Qed.

Lemma sort_by_key_elem (y : string * Q) (l : list (string * Q)) :
  y ∈ sort_by_key l ↔ y ∈ l.
Proof.
  induction l as [|x l IH]; simpl; [done|].
  rewrite insert_by_key_elem, elem_of_cons, IH. tauto.
Qed.

Section LastPass.
Context (names : list string) (prefs : gmap string (gmap string Q)).
Context (largeloop : bool).

Lemma quiet_ask chores n st :
  st_chores st = chores → quiet names prefs largeloop chores n →
  ask names prefs largeloop n st = Ok st.
Proof.
  intros <- (found & Hfound & Hnone). unfold ask. rewrite Hfound, ret_bind.
  by destruct found as [[[|p loop] imp]|].
Qed.

Lemma quiet_pass chores order st :
  st_chores st = chores → (∀ n, n ∈ order → quiet names prefs largeloop chores n) →
  improve_pass names prefs largeloop order st = Ok st.
Proof.
  intros Hst. induction order as [|n order IH]; intros Hq; simpl; [done|].
  rewrite (quiet_ask chores) by (done || apply Hq; by left).
  rewrite ret_bind. apply IH. intros n' Hn'. apply Hq. by right.
Qed.

Lemma ask_made_trade n st st' :
  ask names prefs largeloop n st = Ok st' →
  st_made_trade st = true → st_made_trade st' = true.
Proof.
  intros [[-> _]|(loop & imp & chores' & m & _ & _ & _ & _ & ->)]%ask_Ok;
    done.
Qed.

Lemma improve_pass_made_trade order st st' :
  improve_pass names prefs largeloop order st = Ok st' →
  st_made_trade st = true → st_made_trade st' = true.
Proof.
  revert st. induction order as [|n order IH]; intros st H Hm; simpl in H.
  - by injection H as <-.
  - apply bind_Ok in H as (st1 & Hask & H).
    eapply IH; [done|]. by eapply ask_made_trade.
Qed.

(** A pass that ends with [made_trade] still [False] changed nothing, and
    every person asked came back without a loop. *)
Lemma improve_pass_no_trade order st st' :
  improve_pass names prefs largeloop order st = Ok st' →
  st_made_trade st' = false →
  st' = st ∧ ∀ n, n ∈ order → quiet names prefs largeloop (st_chores st) n.
Proof.
  revert st. induction order as [|n order IH]; intros st H Hm; simpl in H.
  - injection H as <-. split; [done|]. intros n Hn. by apply elem_of_nil in Hn.
  - apply bind_Ok in H as (st1 & Hask & H).
    assert (st_made_trade st1 = false) as Hm1.
    { destruct (st_made_trade st1) eqn:E; [|done].
      rewrite (improve_pass_made_trade _ _ _ H E) in Hm. done. }
    apply ask_Ok in Hask as [[-> Hq]|(loop & imp & chores' & m & _ & _ & _ & _ & ->)];
      [|done].
    destruct (IH _ H Hm) as [-> Hrest]. split; [done|].
    intros n' [->|Hn']%elem_of_cons; [done|]. by apply Hrest.
Qed.

Lemma improve_pass_misery order st st' :
  improve_pass names prefs largeloop order st = Ok st' →
  misery_defined names prefs st → misery_defined names prefs st'.
Proof.
  revert st. induction order as [|n order IH]; intros st H Hm; simpl in H.
  - by injection H as <-.
  - apply bind_Ok in H as (st1 & Hask & H). eapply IH; [done|].
    apply ask_Ok in Hask as [[-> _]|(loop & imp & chores' & m & _ & _ & _ & Hmis & ->)];
      [done|].
    by exists m.
Qed.

(** When the [while] loop is left, a whole pass has found nothing. *)
Lemma improve_loop_end fuel order st st' :
  improve_loop names prefs largeloop fuel order st = Ok st' →
  misery_defined names prefs st →
  misery_defined names prefs st' ∧ ∀ n, n ∈ order → quiet names prefs largeloop (st_chores st') n.
Proof.
  revert st. induction fuel as [|fuel IH]; intros st H Hm; [done|].
  simpl in H. apply bind_Ok in H as (st1 & Hpass & H).
  pose proof (improve_pass_misery _ _ _ Hpass Hm) as Hm1.
  destruct (st_made_trade st1) eqn:E; [by eapply IH|].
  injection H as <-.
  destruct (improve_pass_no_trade _ _ _ Hpass E) as [-> Hq]. done.
Qed.


Lemma asking_keys_fst chores l ks :
  asking_keys names prefs chores l = Ok ks → ks.*1 = l.
Proof.
  revert ks. induction l as [|n l IH]; intros ks H; simpl in H.
  - by injection H as <-.
  - apply bind_Ok in H as (k & Hk & H).
    apply bind_Ok in H as (rest & Hrest & H). injection H as <-.
    simpl. f_equal. by apply IH.
Qed.

Lemma asking_order_elem chores r order n :
  asking_order names prefs chores r = Ok order →
  n ∈ order ↔ n ∈ askers names r.
Proof.
  unfold asking_order. intros (ks & Hks & [= <-])%bind_Ok.
  apply asking_keys_fst in Hks. rewrite <- Hks.
  rewrite !list_elem_of_fmap. by setoid_rewrite sort_by_key_elem.
Qed.

Lemma asking_keys_Ok chores l :
  (∀ n, n ∈ l → is_Ok (asking_key names prefs chores n)) →
  is_Ok (asking_keys names prefs chores l).
Proof.
  induction l as [|n l IH]; intros H; simpl; [by eexists|].
  destruct (H n) as [k Hk]; [by left|]. rewrite Hk, ret_bind.
  destruct IH as [rest Hrest]; [intros n' Hn'; apply H; by right|].
  rewrite Hrest, ret_bind. by eexists.
Qed.

(** A call of [seek_loop] that returns has read the misery of its starter. *)
Lemma seek_loop_key chores n found :
  seek_loop names chores prefs largeloop n [] 0 = Ok found →
  is_Ok (asking_key names prefs chores n).
Proof.
  unfold seek_loop. simpl. intros (i & Hi & H)%bind_Ok.
  apply bind_Ok in H as (m & Hm & _).
  apply cost_at_Ok in Hm as (c & Hc & Hm).
  unfold asking_key. rewrite (cost_at_of_Ok _ _ _ c m); [by eexists| |done].
  unfold holding. by rewrite Hi, ret_bind.
Qed.

Lemma improve_run_end fuel chores r st :
  improve_run names prefs largeloop fuel chores r = Ok st →
  misery_defined names prefs st ∧ ∀ n, n ∈ askers names r → quiet names prefs largeloop (st_chores st) n.
Proof.
  unfold improve_run. intros (order & Horder & H)%bind_Ok.
  apply bind_Ok in H as (m & Hm & H).
  apply improve_loop_end in H as [Hdef Hq]; [|by exists m].
  split; [done|]. intros n Hn. apply Hq.
  by apply (asking_order_elem _ _ _ _ Horder).
Qed.

(** On an assignment where every asker comes back without a loop,
    [improve] returns after one pass, with the same chores. *)
Lemma improve_quiet fuel chores r :
  is_Ok (misery names chores prefs) →
  (∀ n, n ∈ askers names r → quiet names prefs largeloop chores n) →
  improve names prefs largeloop (S fuel) chores r = Ok chores.
Proof.
  intros [m Hm] Hq. unfold improve, improve_run.
  destruct (asking_keys_Ok chores (askers names r)) as [ks Hks].
  { intros n Hn. destruct (Hq n Hn) as (found & Hfound & _).
    by eapply seek_loop_key. }
  assert (asking_order names prefs chores r = Ok (sort_by_key ks).*1) as Horder.
  { unfold asking_order. by rewrite Hks. }
  rewrite Horder, ret_bind, Hm, ret_bind. simpl improve_loop.
  rewrite (quiet_pass chores); [done|done|].
  intros n Hn. apply Hq. by apply (asking_order_elem _ _ _ _ Horder).
Qed.
End LastPass.

(** C5. [improve] is idempotent: run again on its own result, with the same
    askers and the same mode, it returns that result unchanged (one pass is
    enough, so any positive fuel will do). *)
Theorem improve_idempotent
    (names : list string) (prefs : gmap string (gmap string Q))
    (largeloop : bool) (restricted_askers : option (list string))
    (fuel fuel' : nat) (x y : list string) :
  improve names prefs largeloop fuel x restricted_askers = Ok y →
  improve names prefs largeloop (S fuel') y restricted_askers = Ok y.
Proof.
  unfold improve at 1. intros (st & Hrun & ->)%fmap_Ok.
  apply improve_run_end in Hrun as [Hdef Hq]. by apply improve_quiet.
Qed.

(** C10. An empty list of restricted askers is the same as none: the call
    gives the result of a call without restricted askers, and everybody of
    [names] is in the asking order.  Only a non-empty list restricts who
    starts a search: the asking order then holds its members and nobody
    else. *)
Theorem improve_empty_askers
    (names : list string) (prefs : gmap string (gmap string Q))
    (largeloop : bool) (fuel : nat) (chores : list string) :
  improve names prefs largeloop fuel chores (Some [])
    = improve names prefs largeloop fuel chores None ∧
  (∀ order, asking_order names prefs chores (Some []) = Ok order →
            ∀ n, n ∈ order ↔ n ∈ names) ∧
  (∀ a r order, asking_order names prefs chores (Some (a :: r)) = Ok order →
                ∀ n, n ∈ order ↔ n ∈ a :: r).
Proof.
  split; [done|]. split.
  - intros order Horder n. by apply (asking_order_elem _ _ _ _ _ _ Horder).
  - intros a r order Horder n. by apply (asking_order_elem _ _ _ _ _ _ Horder).
Qed.

(** ** improve: termination *)



Section Totality.
Context (names chores0 : list string) (prefs : gmap string (gmap string Q)).
Context (largeloop : bool).
Hypothesis names_NoDup : NoDup names.
Hypothesis prefs_cover : covers prefs names chores0.






End Totality.



Section Termination.
Context (names chores0 : list string) (prefs : gmap string (gmap string Q)).
Context (largeloop : bool).
Hypothesis names_NoDup : NoDup names.
Hypothesis prefs_cover : covers prefs names chores0.









End Termination.

(** ** improve: termination, whatever the chores and the preferences *)

Lemma bind_finished {A B} (m : result A) (k : A → result B) :
  finished m → (∀ a, m = Ok a → finished (k a)) → finished (m ≫= k).
Proof. destruct m as [a|e|]; simpl; intros Hm Hk; [by apply Hk|done|done]. Qed.

Lemma fmap_finished {A B} (f : A → B) (m : result A) :
  finished m → finished (f <$> m).
Proof. by destruct m. Qed.

Lemma index_finished x l : finished (index x l).
Proof.
  induction l as [|y l IH]; simpl; [done|].
  destruct (decide (y = x)); [done|]. by apply fmap_finished.
Qed.

Lemma getitem_finished {A} (l : list A) i : finished (getitem l i).
Proof. unfold getitem. by destruct (l !! i). Qed.






Section AlwaysFinished.
Context (names chores0 : list string) (prefs : gmap string (gmap string Q)).
Context (largeloop : bool).






Hypothesis names_NoDup : NoDup names.





End AlwaysFinished.


(** ** The three-person scenario *)

(** C2. With A, B, C holding IA, IB, IC (total misery 9), [seek_loop] from A
    returns the loop A, B, C with improvement 6; [improve] executes exactly
    that trade and returns IB, IC, IA, where everybody has misery 1 and the
    total is 3; [improve] run on that result returns it unchanged. *)
Theorem abc_three_cycle :
  total_cost abc_names abc_chores abc_prefs = Ok 9 ∧
  seek_loop abc_names abc_chores abc_prefs true "A" [] 0
    = Ok (Some (["A"; "B"; "C"]%string, 6)) ∧
  execute_trade abc_names abc_chores "A" ["A"; "B"; "C"]%string
    = Ok ["IB"; "IC"; "IA"]%string ∧
  (∀ fuel,
     st_trades <$> improve_run abc_names abc_prefs true (S (S fuel)) abc_chores None
     = Ok [Trade "A" ["A"; "B"; "C"]%string 6 abc_chores
                 ["IB"; "IC"; "IA"]%string]) ∧
  (∀ fuel,
     improve abc_names abc_prefs true (S (S fuel)) abc_chores None
     = Ok ["IB"; "IC"; "IA"]%string) ∧
  cost abc_prefs "A" "IB" = Ok 1 ∧
  cost abc_prefs "B" "IC" = Ok 1 ∧
  cost abc_prefs "C" "IA" = Ok 1 ∧
  total_cost abc_names ["IB"; "IC"; "IA"]%string abc_prefs = Ok 3 ∧
  (∀ fuel,
     improve_run abc_names abc_prefs true (S fuel) ["IB"; "IC"; "IA"]%string None
     = Ok {| st_chores := ["IB"; "IC"; "IA"]%string;
             st_historical_misery := [3 / 3];
             st_made_trade := false;
             st_trades := [] |}).
Proof.
  repeat split; try intros fuel; vm_compute; reflexivity.
Qed.

(** ** add_to_history *)

Lemma last_snoc_inv {A} (l : list A) (x : A) :
  last l = Some x → l = removelast l ++ [x].
Proof.
  induction l as [|y l IH]; [done|]. destruct l as [|z l].
  - by intros [= ->].
  - intros H. change (removelast (y :: z :: l)) with (y :: removelast (z :: l)).
    simpl. f_equal. by apply IH.
Qed.

Lemma insert_last {A} (l : list A) (x y : A) :
  <[pred (length (l ++ [x])) := y]> (l ++ [x]) = l ++ [y].
Proof.
  rewrite length_app. simpl. replace (pred (length l + 1)) with (length l + 0)%nat by lia.
  by rewrite insert_app_r.
Qed.

(** Only the last record is compared with the date. *)
Lemma add_to_history_cases hist mon names chores :
  let record := (mon, dict_of (zip names chores)) in
  (∀ h, last hist = Some h → h.1 = mon →
        add_to_history hist mon names chores = removelast hist ++ [record]) ∧
  ((∀ h, last hist = Some h → h.1 ≠ mon) →
        add_to_history hist mon names chores = hist ++ [record]).
Proof.
  intros record. unfold add_to_history. fold record. split.
  - intros h Hlast Hdate. rewrite Hlast, decide_True by done.
    pose proof (last_snoc_inv _ _ Hlast) as E.
    remember (removelast hist) as r eqn:Hr. clear Hr Hlast. subst hist.
    apply insert_last.
  - intros Hne. destruct (last hist) as [h|]; [|done].
    by rewrite decide_False by (by apply Hne).
Qed.



(** ** get_current_situation *)

(** C8. With as many people in town as chores, the branch of the identity
    case reads the local [chores] before it is assigned: the call ends in an
    [UnboundLocalError] and returns no chores list. *)
Theorem get_current_situation_same_count :
  get_current_situation ["A"; "B"]%string ["X"; "Y"]%string [[]]
    = Raise UnboundLocalError ∧
  get_current_situation ["A"; "B"; "C"]%string ["X"; "Y"]%string [["C"]%string]
    = Raise UnboundLocalError.
Proof. split; vm_compute; reflexivity. Qed.

(** The other two branches assign [chores] first and return. *)
Lemma get_current_situation_other_counts :
  get_current_situation ["A"; "B"; "C"]%string ["X"]%string [[]]
    = Ok (["A"; "B"; "C"]%string, ["X"; "Wild"; "Wild"]%string) ∧
  get_current_situation ["A"]%string ["X"; "Y"; "Z"]%string
      [[]; ["Y"]%string; ["X"; "Z"]%string]
    = Ok (["A"]%string, ["Y"]%string).
Proof. split; vm_compute; reflexivity. Qed.

(** The identity case always ends this way. *)
Lemma get_current_situation_identity_raises all_names all_chores answers oot rest :
  ask_out_of_town all_names answers = Ok (oot, rest) →
  length (filter (λ name, name ∉ oot) all_names) = length all_chores →
  get_current_situation all_names all_chores answers = Raise UnboundLocalError.
Proof.
  intros Hask Hlen. unfold get_current_situation. rewrite Hask, ret_bind.
  cbv beta iota zeta. by rewrite decide_True.
Qed.

(** ** The cycle baseline *)







(** C6. When nobody of the cycle's opening record is in town this week, the
    unpacking of the filtered baseline fails: [get_from_current_cycle] ends
    in a [ValueError] and returns no chores list, although the record is a
    bijection and names and chores have the same length. *)
Theorem baseline_without_cycle_start_people :
  let hist := [(Date 2020 3 30, [("A", "X")]%string)] in
  find_cycle_start hist (Date 2020 3 30) = Some [("A", "X")]%string ∧
  get_from_current_cycle hist (Date 2020 3 30) ["B"]%string ["X"]%string
    = Raise ValueError.
Proof. split; vm_compute; reflexivity. Qed.

(** Whenever the filtered baseline is empty the call ends that way. *)
Lemma get_from_current_cycle_nobody hist moncy names chores items :
  find_cycle_start hist moncy = Some items →
  (∀ nc, nc ∈ items → nc.1 ∉ names) →
  get_from_current_cycle hist moncy names chores = Raise ValueError.
Proof.
  intros Hfind Hnone. unfold get_from_current_cycle. rewrite Hfind.
  destruct items as [|nc items]; [done|].
  change (unzip_pairs (nc :: items))
    with (Ok ((nc :: items).*1, (nc :: items).*2)).
  rewrite ret_bind. cbv beta iota. rewrite zip_fst_snd.
  assert (filter (λ nc0 : string * string, nc0.1 ∈ names) (nc :: items) = [])
    as ->; [|done].
  destruct (filter _ _) as [|x l] eqn:E; [done|].
  assert (x ∈ filter (λ nc0 : string * string, nc0.1 ∈ names) (nc :: items))
    as Hin by (rewrite E; by left).
  apply list_elem_of_filter in Hin as [Hx Hin]. by destruct (Hnone x Hin).
Qed.

(** With somebody of the cycle start in town the baseline is built: people
    keep the chore they had when it is still on the list, the others draw the
    remaining chores in order, wildcards included. *)
Lemma baseline_scenarios :
  let d := Date 2020 3 30 in
  get_from_current_cycle [(d, [("A", "X"); ("B", "Y"); ("C", "Z")]%string)] d
    ["A"; "B"; "D"]%string ["X"; "Y"; "W"]%string
    = Ok ["X"; "Y"; "W"]%string ∧
  get_from_current_cycle [(d, [("A", "Wild"); ("B", "Y"); ("C", "Wild")]%string)] d
    ["A"; "C"]%string ["Y"; "Wild"]%string
    = Ok ["Wild"; "Y"]%string ∧
  get_from_current_cycle [(d, [("A", "X"); ("B", "Y")]%string)] d
    ["C"; "B"; "D"]%string ["Y"; "X"; "Wild"]%string
    = Ok ["X"; "Y"; "Wild"]%string.
Proof. repeat split; vm_compute; reflexivity. Qed.

(** ** The cycle baseline when somebody of the cycle start is in town *)

Lemma mem_true x l : mem x l = true ↔ x ∈ l.
Proof. unfold mem. apply bool_decide_eq_true. Qed.

Lemma mem_false x l : mem x l = false ↔ x ∉ l.
Proof. unfold mem. apply bool_decide_eq_false. Qed.

Lemma tag_wild_length n l : length (tag_wild n l) = length l.
Proof.
  revert n. induction l as [|c l IH]; intros n; simpl; [done|].
  destruct (decide (c = "Wild"%string)); simpl; by rewrite IH.
Qed.

Lemma contains_tagged s : contains "Wild" ("Wild" +:+ s) = true.
Proof. by destruct s. Qed.

(** Numbering the wildcards and taking the numbers off again gives the list
    back, when its other chores do not have "Wild" in their name. *)
Lemma strip_tag_wild n l :
  (∀ c, c ∈ l → c = "Wild"%string ∨ contains "Wild" c = false) →
  strip_wild (tag_wild n l) = l.
Proof.
  revert n. induction l as [|c l IH]; intros n Hl; [done|].
  unfold strip_wild in *. simpl.
  assert (∀ c', c' ∈ l → c' = "Wild"%string ∨ contains "Wild" c' = false) as Hl'
    by (intros c' Hc'; apply Hl; by right).
  destruct (decide (c = "Wild"%string)) as [->|Hne].
  - rewrite fmap_cons, contains_tagged. f_equal. by apply IH.
  - rewrite fmap_cons. destruct (Hl c) as [->|Hc]; [by left|done|].
    rewrite Hc. f_equal. by apply IH.
Qed.

(** A chore that is no wildcard stays where it is. *)
Lemma tag_wild_lookup n l i c :
  l !! i = Some c → c ≠ "Wild"%string → tag_wild n l !! i = Some c.
Proof.
  revert n i. induction l as [|c0 l IH]; intros n i Hi Hne; [done|].
  simpl. destruct i as [|i]; simpl in Hi.
  - injection Hi as ->. by rewrite decide_False.
  - destruct (decide (c0 = "Wild"%string)); simpl; by apply IH.
Qed.

Section Baseline.
Context (cc_names cc_chores chores : list string).
Hypothesis cc_length : length cc_names = length cc_chores.

Lemma kept_Some name c :
  kept cc_names cc_chores chores name = Some c ↔
  ∃ i, index name cc_names = Ok i ∧ cc_chores !! i = Some c ∧ c ∈ chores.
Proof.
  unfold kept. split.
  - destruct (index name cc_names) as [i| |]; [|done..].
    destruct (cc_chores !! i) as [c'|] eqn:Hc'; [|done].
    destruct (mem c' chores) eqn:Hm; [|done]. intros [= ->].
    exists i. split; [done|]. split; [done|]. by apply mem_true.
  - intros (i & -> & -> & Hc). apply mem_true in Hc. by rewrite Hc.
Qed.

(** The test made for each name in the [for name in names] loop. *)
Lemma keep_test name :
  (if mem name cc_names then
     i ← index name cc_names;
     cc_chore ← getitem cc_chores i;
     Ok (if mem cc_chore chores then Some cc_chore else None)
   else Ok None) = Ok (kept cc_names cc_chores chores name).
Proof.
  unfold kept. destruct (mem name cc_names) eqn:Hm.
  - apply mem_true in Hm. destruct (index_of_elem _ _ Hm) as [i Hi].
    rewrite Hi, ret_bind.
    pose proof (lookup_lt_Some _ _ _ (index_Ok _ _ _ Hi)) as Hlt.
    destruct (lookup_lt_is_Some_2 cc_chores i) as [c Hc]; [lia|].
    rewrite Hc. apply getitem_Ok in Hc. by rewrite Hc, ret_bind.
  - apply mem_false in Hm.
    destruct (index name cc_names) as [i| |] eqn:Hi; [|done..].
    by apply index_elem in Hi.
Qed.

Lemma assign_baseline_spec names : ∀ extras acc,
  (length (filter (λ n, kept cc_names cc_chores chores n = None) names)
   ≤ length extras)%nat →
  ∃ new,
    assign_baseline cc_names cc_chores chores names extras acc = Ok (acc ++ new) ∧
    new ≡ₚ omap (kept cc_names cc_chores chores) names ++
           take (length (filter (λ n, kept cc_names cc_chores chores n = None)
                           names)) extras ∧
    length new = length names ∧
    ∀ i name c, names !! i = Some name →
                kept cc_names cc_chores chores name = Some c →
                new !! i = Some c.
Proof.
  induction names as [|name names IH]; intros extras acc Hlen.
  - exists []. simpl. rewrite app_nil_r. split; [done|].
    split; [done|]. split; [done|]. intros i name c Hi. done.
  - simpl assign_baseline. rewrite keep_test, ret_bind.
    rewrite filter_cons in Hlen. rewrite filter_cons. simpl omap.
    destruct (kept cc_names cc_chores chores name) as [c|] eqn:Hkept.
    + rewrite decide_False in Hlen by done. rewrite decide_False by done.
      destruct (IH extras (acc ++ [c]) Hlen) as (new & Hnew & Hperm & Hl & Hpos).
      exists (c :: new). rewrite Hnew, <- app_assoc. split; [done|].
      split; [by rewrite Hperm|]. split; [simpl; by rewrite Hl|].
      intros [|i] name' c' Hi Hk; simpl in *.
      * injection Hi as <-. congruence.
      * by eapply Hpos.
    + rewrite decide_True in Hlen by done. rewrite decide_True by done.
      simpl in Hlen. destruct extras as [|e extras]; [simpl in Hlen; lia|].
      simpl in Hlen.
      destruct (IH extras (acc ++ [e]) ltac:(lia)) as (new & Hnew & Hperm & Hl & Hpos).
      exists (e :: new). unfold getitem. simpl. rewrite Hnew, <- app_assoc.
      split; [done|]. split.
      { rewrite Hperm. by rewrite Permutation_middle. }
      split; [simpl; by rewrite Hl|].
      intros [|i] name' c' Hi Hk; simpl in *.
      * injection Hi as <-. congruence.
      * by eapply Hpos.
Qed.

Lemma kept_count names :
  length names
  = (length (omap (kept cc_names cc_chores chores) names)
     + length (filter (λ n, kept cc_names cc_chores chores n = None) names))%nat.
Proof.
  induction names as [|name names IH]; [done|].
  rewrite filter_cons.
  change (omap (kept cc_names cc_chores chores) (name :: names))
    with (match kept cc_names cc_chores chores name with
          | Some c => c :: omap (kept cc_names cc_chores chores) names
          | None => omap (kept cc_names cc_chores chores) names
          end).
  destruct (kept cc_names cc_chores chores name) as [c|] eqn:E.
  - rewrite decide_False by done. cbn [length]. lia.
  - rewrite decide_True by done. cbn [length]. lia.
Qed.

Hypothesis cc_names_NoDup : NoDup cc_names.
Hypothesis cc_chores_NoDup : NoDup cc_chores.

Lemma kept_inj n1 n2 c :
  kept cc_names cc_chores chores n1 = Some c →
  kept cc_names cc_chores chores n2 = Some c → n1 = n2.
Proof.
  intros (i1 & Hi1 & Hc1 & _)%kept_Some (i2 & Hi2 & Hc2 & _)%kept_Some.
  assert (i1 = i2) as -> by (by eapply NoDup_lookup).
  by eapply index_inj.
Qed.

Lemma kept_NoDup names :
  NoDup names → NoDup (omap (kept cc_names cc_chores chores) names).
Proof.
  induction 1 as [|name names Hname Hnd IH]; simpl; [constructor|].
  destruct (kept cc_names cc_chores chores name) as [c|] eqn:E; [|done].
  apply NoDup_cons. split; [|done].
  intros (name' & Hname' & Hk)%list_elem_of_omap.
  by rewrite (kept_inj _ _ _ E Hk) in Hname.
Qed.

(** The chores kept are the chores of the week that the cycle start knows. *)
Lemma kept_all names :
  NoDup names → NoDup chores → (∀ n, n ∈ cc_names → n ∈ names) →
  omap (kept cc_names cc_chores chores) names
  ≡ₚ filter (λ c, c ∈ cc_chores) chores.
Proof.
  intros Hnames Hchores Hsub. apply NoDup_Permutation.
  - by apply kept_NoDup.
  - by apply NoDup_filter.
  - intros c. rewrite list_elem_of_omap, list_elem_of_filter. split.
    + intros (name & Hname & (i & Hi & Hc & Hin)%kept_Some).
      split; [|done]. by eapply list_elem_of_lookup_2.
    + intros [(i & Hi)%list_elem_of_lookup_1 Hin].
      destruct (lookup_lt_is_Some_2 cc_names i) as [name Hname].
      { rewrite cc_length. by eapply lookup_lt_Some. }
      exists name. split.
      * apply Hsub. by eapply list_elem_of_lookup_2.
      * apply kept_Some. exists i. split; [|done].
        by apply index_of_lookup.
Qed.

(** With one chore per name, everybody is served and the new chores are
    the chores of the week in another order. *)
Lemma assign_baseline_permutation names :
  NoDup names → NoDup chores → (∀ n, n ∈ cc_names → n ∈ names) →
  length chores = length names →
  ∃ new,
    assign_baseline cc_names cc_chores chores names
      (filter (λ c, c ∉ cc_chores) chores) [] = Ok new ∧
    new ≡ₚ chores ∧ length new = length names ∧
    ∀ i name c, names !! i = Some name →
                kept cc_names cc_chores chores name = Some c →
                new !! i = Some c.
Proof.
  intros Hnames Hchores Hsub Hlen.
  pose proof (kept_all names Hnames Hchores Hsub) as Hkept.
  pose proof (filter_app_complement (λ c, c ∈ cc_chores) chores) as Hpart.
  pose proof (kept_count names) as Hcount.
  assert (length (filter (λ n, kept cc_names cc_chores chores n = None) names)
          = length (filter (λ c, c ∉ cc_chores) chores)) as Hdraw.
  { pose proof (f_equal length (eq_refl chores)) as _.
    assert (length chores
            = (length (filter (λ c, c ∈ cc_chores) chores)
               + length (filter (λ c, c ∉ cc_chores) chores))%nat) as Hsplit.
    { rewrite <- length_app. by rewrite Hpart. }
    rewrite Hkept in Hcount. lia. }
  destruct (assign_baseline_spec names (filter (λ c, c ∉ cc_chores) chores) [])
    as (new & Hnew & Hperm & Hl & Hpos); [lia|].
  exists new. split; [done|]. split; [|done].
  rewrite Hperm, Hdraw, firstn_all, Hkept. exact Hpart.
Qed.
End Baseline.

(** Where C6 holds.  When the record of the cycle start is found, somebody
    of it is in town, names are distinct, there is one chore per name, and
    chores are distinct once the wildcards are numbered (in the week's list
    and among the people of the record who are in town), with no other chore
    name holding "Wild": the call returns the chores of the week in another
    order, one per name, and whoever had at the cycle start a chore of this
    week that is no wildcard has it again. *)
Lemma get_from_current_cycle_bijection
    (hist : history) (moncy : date) (names chores : list string)
    (items : list (string * string)) :
  find_cycle_start hist moncy = Some items →
  NoDup items.*1 → NoDup names → length chores = length names →
  (∃ nc, nc ∈ items ∧ nc.1 ∈ names) →
  NoDup (tag_wild 0 chores) →
  NoDup (tag_wild 0 (filter (λ nc : string * string, nc.1 ∈ names) items).*2) →
  (∀ c, c ∈ chores → c = "Wild"%string ∨ contains "Wild" c = false) →
  ∃ new,
    get_from_current_cycle hist moncy names chores = Ok new ∧
    new ≡ₚ chores ∧ length new = length names ∧
    ∀ i name c, names !! i = Some name → (name, c) ∈ items →
                c ≠ "Wild"%string → c ∈ chores → new !! i = Some c.
Proof.
  intros Hfind Hitems Hnames Hlen (nc & Hnc & Hpresent) Hchores Hcc Hplain.
  unfold get_from_current_cycle. rewrite Hfind.
  destruct items as [|nc0 items0] eqn:Eitems; [by apply elem_of_nil in Hnc|].
  rewrite <- Eitems in *. clear nc0 items0 Eitems.
  assert (unzip_pairs items = Ok (items.*1, items.*2)) as ->.
  { destruct items; [by apply elem_of_nil in Hnc|done]. }
  rewrite ret_bind. cbv beta iota. rewrite zip_fst_snd.
  assert (nc ∈ filter (λ nc0 : string * string, nc0.1 ∈ names) items) as HncF
    by (by apply list_elem_of_filter).
  assert (unzip_pairs (filter (λ nc0 : string * string, nc0.1 ∈ names) items)
          = Ok ((filter (λ nc0 : string * string, nc0.1 ∈ names) items).*1,
                (filter (λ nc0 : string * string, nc0.1 ∈ names) items).*2))
    as ->.
  { destruct (filter _ items); [by apply elem_of_nil in HncF|done]. }
  set (F := filter (λ nc0 : string * string, nc0.1 ∈ names) items) in *.
  rewrite ret_bind. cbv beta iota zeta.
  assert (NoDup F.*1) as HF1.
  { eapply sublist_NoDup; [exact Hitems|].
    apply fmap_sublist, sublist_filter. }
  destruct (assign_baseline_permutation F.*1 (tag_wild 0 F.*2) (tag_wild 0 chores))
    with (names := names) as (new & Hnew & Hperm & Hl & Hpos).
  { by rewrite tag_wild_length, !length_fmap. }
  { done. }
  { done. }
  { done. }
  { done. }
  { intros n (nc' & -> & Hin)%list_elem_of_fmap.
    by apply list_elem_of_filter in Hin as [? _]. }
  { by rewrite tag_wild_length. }
  rewrite Hnew, ret_bind. exists (strip_wild new).
  split; [done|]. split.
  { unfold strip_wild. rewrite Hperm. fold (strip_wild (tag_wild 0 chores)).
    by rewrite strip_tag_wild. }
  split; [unfold strip_wild; by rewrite length_fmap|].
  intros i name c Hi Hin Hne Hc.
  assert ((name, c) ∈ F) as HinF.
  { apply list_elem_of_filter. split; [|done]. simpl.
    by eapply list_elem_of_lookup_2. }
  apply list_elem_of_lookup_1 in HinF as (j & Hj).
  assert (kept F.*1 (tag_wild 0 F.*2) (tag_wild 0 chores) name = Some c) as Hk.
  { apply kept_Some. exists j. split; [|split].
    - apply index_of_lookup; [done|]. by rewrite list_lookup_fmap, Hj.
    - apply tag_wild_lookup; [|done]. by rewrite list_lookup_fmap, Hj.
    - apply list_elem_of_lookup_1 in Hc as (k & Hk).
      eapply list_elem_of_lookup_2. by apply tag_wild_lookup. }
  unfold strip_wild. rewrite list_lookup_fmap, (Hpos i name c Hi Hk). simpl.
  destruct (Hplain c Hc) as [->|Hno]; [done|]. by rewrite Hno.
Qed.

(** The lemma at work: A and B keep X and Y, D draws W. *)
Lemma get_from_current_cycle_bijection_scenario :
  let d := Date 2020 3 30 in
  let items := [("A", "X"); ("B", "Y"); ("C", "Z")]%string in
  ∃ new,
    get_from_current_cycle [(d, items)] d ["A"; "B"; "D"]%string
      ["X"; "Y"; "W"]%string = Ok new ∧
    new ≡ₚ ["X"; "Y"; "W"]%string ∧ length new = 3%nat ∧
    new !! 0%nat = Some "X"%string ∧ new !! 1%nat = Some "Y"%string.
Proof.
  intros d items.
  destruct (get_from_current_cycle_bijection [(d, items)] d
              ["A"; "B"; "D"]%string ["X"; "Y"; "W"]%string items)
    as (new & Hnew & Hperm & Hlen & Hkeep).
  - vm_compute. reflexivity.
  - compute_done.
  - compute_done.
  - reflexivity.
  - exists ("A", "X")%string. split; [by left|]. by left.
  - compute_done.
  - compute_done.
  - intros c Hc. right.
    repeat (apply elem_of_cons in Hc as [->|Hc]; [reflexivity|]).
    by apply elem_of_nil in Hc.
  - exists new. split; [exact Hnew|]. split; [exact Hperm|].
    split; [exact Hlen|]. split.
    + apply (Hkeep 0%nat "A"%string "X"%string);
        [reflexivity|by left|discriminate|by left].
    + apply (Hkeep 1%nat "B"%string "Y"%string);
        [reflexivity|right; by left|discriminate|right; by left].
Qed.

(** ** The theorems at work on the three-person scenario *)





Lemma improve_idempotent_abc :
  improve abc_names abc_prefs true 2 abc_chores None
    = Ok ["IB"; "IC"; "IA"]%string ∧
  improve abc_names abc_prefs true 1 ["IB"; "IC"; "IA"]%string None
    = Ok ["IB"; "IC"; "IA"]%string.
Proof.
  split; [vm_compute; reflexivity|].
  apply (improve_idempotent abc_names abc_prefs true None 2 0 abc_chores).
  vm_compute. reflexivity.
Defined.

Lemma improve_empty_askers_abc :
  improve abc_names abc_prefs false 2 abc_chores (Some [])
    = improve abc_names abc_prefs false 2 abc_chores None ∧
  asking_order abc_names abc_prefs abc_chores (Some []) = Ok abc_names ∧
  (∀ n, n ∈ abc_names ↔ n ∈ abc_names) ∧
  asking_order abc_names abc_prefs abc_chores (Some ["C"; "B"]%string)
    = Ok ["C"; "B"]%string ∧
  (∀ n, n ∈ ["C"; "B"]%string ↔ n ∈ ["C"; "B"]%string).
Proof.
  destruct (improve_empty_askers abc_names abc_prefs false 2 abc_chores)
    as (Hsame & Hall & Hsome).
  assert (asking_order abc_names abc_prefs abc_chores (Some []) = Ok abc_names)
    as Hempty by (vm_compute; reflexivity).
  assert (asking_order abc_names abc_prefs abc_chores (Some ["C"; "B"]%string)
          = Ok ["C"; "B"]%string) as Hcb by (vm_compute; reflexivity).
  split; [exact Hsame|]. split; [exact Hempty|].
  split; [exact (Hall abc_names Hempty)|]. split; [exact Hcb|].
  exact (Hsome "C"%string ["B"%string] ["C"; "B"]%string Hcb).
Defined.



(** ** Why the names have to be distinct *)

(** With a name that stands twice, [names.index] finds the first of its
    chores while the list of desired switches was built from the second:
    [seek_loop] returns a loop with a negative improvement, and [improve]
    trades back and forth for ever. *)
Lemma seek_loop_repeated_name :
  seek_loop twice_names twice_chores twice_prefs true "A" [] 0
    = Ok (Some (["A"; "B"]%string, -1)) ∧
  seek_loop twice_names ["Y"; "X"; "Z"]%string twice_prefs true "A" [] 0
    = Ok (Some (["A"; "B"]%string, 1)).
Proof. split; vm_compute; reflexivity. Qed.

Lemma improve_pass_repeated_name hm made tr :
  (∃ st', improve_pass twice_names twice_prefs true twice_names
            (ImproveState twice_chores hm made tr) = Ok st' ∧
          st_chores st' = ["Y"; "X"; "Z"]%string ∧ st_made_trade st' = true) ∧
  (∃ st', improve_pass twice_names twice_prefs true twice_names
            (ImproveState ["Y"; "X"; "Z"]%string hm made tr) = Ok st' ∧
          st_chores st' = twice_chores ∧ st_made_trade st' = true).
Proof. split; eexists; (split; [vm_compute; reflexivity|]); done. Qed.

Lemma improve_loop_repeated_name fuel : ∀ st,
  st_chores st = twice_chores ∨ st_chores st = ["Y"; "X"; "Z"]%string →
  improve_loop twice_names twice_prefs true fuel twice_names st = OutOfFuel.
Proof.
  induction fuel as [|fuel IH]; intros [chores hm made tr] Hst; [done|].
  simpl in Hst.
  change (improve_loop twice_names twice_prefs true (S fuel) twice_names
            (ImproveState chores hm made tr))
    with (st' ← improve_pass twice_names twice_prefs true twice_names
                  (ImproveState chores hm false tr);
          if st_made_trade st'
          then improve_loop twice_names twice_prefs true fuel twice_names st'
          else Ok st').
  destruct (improve_pass_repeated_name hm false tr)
    as [(st1 & Hpass1 & Hc1 & Hm1) (st2 & Hpass2 & Hc2 & Hm2)].
  destruct Hst as [->| ->].
  - rewrite Hpass1, ret_bind, Hm1. apply IH. by right.
  - rewrite Hpass2, ret_bind, Hm2. apply IH. by left.
Qed.

Lemma improve_repeated_name fuel :
  improve twice_names twice_prefs true fuel twice_chores None = OutOfFuel.
Proof.
  unfold improve, improve_run.
  assert (asking_order twice_names twice_prefs twice_chores None
          = Ok twice_names) as -> by (vm_compute; reflexivity).
  rewrite ret_bind.
  destruct (misery twice_names twice_chores twice_prefs) as [m| |] eqn:Hm;
    [|by vm_compute in Hm..].
  rewrite ret_bind, improve_loop_repeated_name; [done|by left].
Qed.

(** * Further properties of the code *)

(** ** seek_loop: the loop returned is the best one *)



Section SeekLoopBest.
Context (names chores : list string) (prefs : gmap string (gmap string Q)).
Context (largeloop : bool).




(** In the recursive case of [possibilities_elem] the mode allowed the call. *)
Lemma possibilities_elem_mode recurse curr incl m imp ds ps p :
  possibilities names chores prefs largeloop recurse curr incl m imp ds = Ok ps →
  p ∈ ps →
  (incl ≠ [] ∧ p.1 = incl ++ [curr]) ∨
  (largeloop || bool_decide (incl = []) = true ∧
   ∃ n imp', recurse n imp' = Ok (Some p)).
Proof.
  revert ps. induction ds as [|n ds IH]; intros ps H Hp; simpl in H.
  - injection H as <-. by apply elem_of_nil in Hp.
  - apply bind_Ok in H as (here & Hhere & H).
    apply bind_Ok in H as (rest & Hrest & H).
    injection H as <-. apply elem_of_app in Hp as [Hp|Hp]; [|by eapply IH].
    clear IH Hrest.
    destruct (bool_decide (incl ≠ []) && bool_decide (head incl = Some n)) eqn:E.
    + apply andb_true_iff in E as [E1%bool_decide_eq_true _].
      apply bind_Ok in Hhere as (imp' & Himp & Hhere). injection Hhere as <-.
      apply list_elem_of_singleton in Hp as ->. by left.
    + destruct (largeloop || bool_decide (incl = [])) eqn:Hmode.
      * apply bind_Ok in Hhere as (imp' & Himp & Hhere).
        apply bind_Ok in Hhere as (found & Hfound & Hhere).
        injection Hhere as <-. destruct found as [[[|p0 loop] g]|].
        -- by apply elem_of_nil in Hp.
        -- apply list_elem_of_singleton in Hp as ->. right.
           split; [done|]. by exists n, imp'.
        -- by apply elem_of_nil in Hp.
      * injection Hhere as <-. by apply elem_of_nil in Hp.
Qed.
End SeekLoopBest.

Section SeekLoopBestMain.
Context (names chores : list string) (prefs : gmap string (gmap string Q)).
Context (largeloop : bool).
Hypothesis names_NoDup : NoDup names.


(** In pairwise mode a returned loop is the starter and one partner, or the
    branch so far and the current person. *)
Lemma seek_loop_fuel_pairwise fuel : ∀ curr incl imp loop g,
  largeloop = false →
  seek_loop_fuel names chores prefs largeloop fuel curr incl imp
    = Ok (Some (loop, g)) →
  (incl = [] ∧ ∃ v, loop = [curr; v]) ∨ (incl ≠ [] ∧ loop = incl ++ [curr]).
Proof.
  induction fuel as [|fuel IH]; intros curr incl imp loop g Hmode H; [done|].
  simpl in H.
  apply bind_Ok in H as (i_name & Hi_name & H).
  apply bind_Ok in H as (m & Hm & H).
  apply bind_Ok in H as (ds & Hds & H).
  apply bind_Ok in H as (ps & Hps & H).
  assert ((loop, g) ∈ ps) as Hp.
  { destruct ps as [|p0 ps]; [done|].
    apply fmap_Ok in H as (p & Hp & [= <-]). apply getitem_Ok in Hp.
    by eapply list_elem_of_lookup_2. }
  destruct (possibilities_elem_mode _ _ _ _ _ _ _ _ _ _ _ _ Hps Hp)
    as [[Hne Hloop]|[Hrec (n & imp' & Hfound)]].
  - by right.
  - rewrite Hmode in Hrec. simpl in Hrec. apply bool_decide_eq_true in Hrec.
    subst incl. left. split; [done|].
    apply IH in Hfound as [[[=] _]|[_ ->]]; [|done]. by exists n.
Qed.
End SeekLoopBestMain.


(** X2. In pairwise mode ([largeloop=False]) a loop found from the starter
    is a swap of two people: the starter and one partner. *)
Theorem seek_loop_pairwise
    (names chores : list string) (prefs : gmap string (gmap string Q))
    (s : string) (loop : list string) (imp : Q) :
  seek_loop names chores prefs false s [] 0 = Ok (Some (loop, imp)) →
  ∃ v, loop = [s; v].
Proof.
  intros H.
  apply seek_loop_fuel_pairwise in H as [[_ Hv]|[Hne _]]; done.
Qed.


Lemma seek_loop_pairwise_abc :
  seek_loop abc_names abc_chores abc_prefs false "A" [] 0
    = Ok (Some (["A"; "B"]%string, 3)) ∧
  ∃ v, ["A"; "B"]%string = ["A"%string; v].
Proof.
  assert (seek_loop abc_names abc_chores abc_prefs false "A" [] 0
          = Ok (Some (["A"; "B"]%string, 3))) as Hrun by (vm_compute; reflexivity).
  split; [exact Hrun|].
  exact (seek_loop_pairwise abc_names abc_chores abc_prefs "A" _ _ Hrun).
Defined.

(** ** improve: the chores are handed around, none is lost *)

Lemma insert_swap_Permutation {A} (l : list A) (i j : nat) (x c : A) :
  l !! j = Some x → (i < length l)%nat →
  <[j:=c]> (<[i:=x]> l) ≡ₚ <[i:=c]> l.
Proof.
  intros Hj Hi. destruct (decide (i = j)) as [->|Hne].
  - by rewrite list_insert_insert_eq.
  - rewrite <- (list_insert_insert_eq l i x c).
    apply Permutation_insert_swap.
    + by apply list_lookup_insert_eq.
    + by rewrite list_lookup_insert_ne.
Qed.

Section HandAround.
Context (names : list string) (prefs : gmap string (gmap string Q)).
Context (largeloop : bool).

(** A loop returned by [seek_loop] goes on from the branch it was sought
    from. *)
Lemma seek_loop_fuel_prefix chores fuel : ∀ curr incl imp loop g,
  seek_loop_fuel names chores prefs largeloop fuel curr incl imp
    = Ok (Some (loop, g)) →
  ∃ rest, loop = incl ++ curr :: rest.
Proof.
  induction fuel as [|fuel IH]; intros curr incl imp loop g H; [done|].
  simpl in H.
  apply bind_Ok in H as (i_name & Hi_name & H).
  apply bind_Ok in H as (m & Hm & H).
  apply bind_Ok in H as (ds & Hds & H).
  apply bind_Ok in H as (ps & Hps & H).
  assert ((loop, g) ∈ ps) as Hp.
  { destruct ps as [|p0 ps]; [done|].
    apply fmap_Ok in H as (p & Hp & [= <-]). apply getitem_Ok in Hp.
    by eapply list_elem_of_lookup_2. }
  destruct (possibilities_elem_mode _ _ _ _ _ _ _ _ _ _ _ _ Hps Hp)
    as [[Hne Hloop]|[Hrec (n & imp' & Hfound)]].
  - exists []. done.
  - apply IH in Hfound as [rest ->]. exists (n :: rest).
    by rewrite <- app_assoc.
Qed.

(** Handing the chores along a path keeps them all, once the chore [c0] set
    aside at the start is put in the place of the last person. *)
Lemma pass_along_Permutation c0 orig l : ∀ u cur cur1 z i cur2,
  (∀ iu, index u names = Ok iu → <[iu:=c0]> cur ≡ₚ orig) →
  pass_along names cur (zip (removelast (u :: l)) (tail (u :: l))) = Ok cur1 →
  last (u :: l) = Some z → index z names = Ok i →
  setitem cur1 i c0 = Ok cur2 →
  cur2 ≡ₚ orig.
Proof.
  induction l as [|v l IH]; intros u cur cur1 z i cur2 Hinv Hpass Hz Hi Hset.
  - simpl in Hpass, Hz. injection Hpass as <-. injection Hz as <-.
    apply setitem_Ok in Hset as [_ ->]. by apply Hinv.
  - change (zip (removelast (u :: v :: l)) (tail (u :: v :: l)))
      with ((u, v) :: zip (removelast (v :: l)) (tail (v :: l))) in Hpass.
    simpl in Hpass.
    apply bind_Ok in Hpass as (x & Hx & Hpass).
    apply bind_Ok in Hpass as (iu & Hiu & Hpass).
    apply bind_Ok in Hpass as (cur' & Hcur' & Hpass).
    apply setitem_Ok in Hcur' as [Hlt ->].
    apply holding_Ok in Hx as (iv & Hiv & Hx).
    apply (IH v (<[iu:=x]> cur) cur1 z i cur2); try done.
    intros iv' Hiv'. assert (iv' = iv) as -> by congruence.
    rewrite insert_swap_Permutation by done. by apply Hinv.
Qed.

Lemma execute_trade_Permutation chores n loop chores' :
  execute_trade names chores n loop = Ok chores' →
  head loop = Some n →
  chores' ≡ₚ chores.
Proof.
  intros H Hhead. destruct loop as [|n' l]; [done|]. injection Hhead as ->.
  unfold execute_trade in H.
  apply bind_Ok in H as (nchore & Hnchore & H).
  apply bind_Ok in H as (cur1 & Hpass & H).
  apply bind_Ok in H as (z & Hz & H).
  apply bind_Ok in H as (i & Hi & H).
  apply holding_Ok in Hnchore as (i_n & Hi_n & Hnchore).
  destruct (last (n :: l)) as [z'|] eqn:Hlast; [|done]. injection Hz as ->.
  apply (pass_along_Permutation nchore chores l n chores cur1 z i chores');
    try done.
  intros iu Hiu. assert (iu = i_n) as -> by congruence.
  by rewrite list_insert_id.
Qed.

Lemma ask_Permutation n st st' :
  ask names prefs largeloop n st = Ok st' →
  st_chores st' ≡ₚ st_chores st.
Proof.
  intros [[-> _]|(loop & imp & chores' & m & Hne & Hseek & Hex & _ & ->)]%ask_Ok;
    [done|].
  simpl. apply (execute_trade_Permutation _ n loop); [done|].
  apply seek_loop_fuel_prefix in Hseek as [rest ->]. done.
Qed.

Lemma improve_pass_Permutation order : ∀ st st',
  improve_pass names prefs largeloop order st = Ok st' →
  st_chores st' ≡ₚ st_chores st.
Proof.
  induction order as [|n order IH]; intros st st' H; simpl in H.
  - by injection H as <-.
  - apply bind_Ok in H as (st1 & Hask & H).
    rewrite (IH _ _ H). by eapply ask_Permutation.
Qed.

Lemma improve_loop_Permutation fuel order : ∀ st st',
  improve_loop names prefs largeloop fuel order st = Ok st' →
  st_chores st' ≡ₚ st_chores st.
Proof.
  induction fuel as [|fuel IH]; intros st st' H; [done|]. simpl in H.
  apply bind_Ok in H as (st1 & Hpass & H).
  apply improve_pass_Permutation in Hpass. simpl in Hpass.
  destruct (st_made_trade st1).
  - rewrite (IH _ _ H). done.
  - by injection H as <-.
Qed.
End HandAround.

Lemma improve_permutation_aux
    (names : list string) (prefs : gmap string (gmap string Q))
    (largeloop : bool) (fuel : nat) (chores : list string)
    (restricted_askers : option (list string)) (result : list string) :
  improve names prefs largeloop fuel chores restricted_askers = Ok result →
  result ≡ₚ chores.
Proof.
  unfold improve, improve_run. intros (st & H & ->)%fmap_Ok.
  apply bind_Ok in H as (order & _ & H).
  apply bind_Ok in H as (m & _ & H).
  by apply improve_loop_Permutation in H.
Qed.

(** X3. [improve] only hands chores around: whenever it returns, the list
    returned is a rearrangement of the chores given, with every chore as
    often as before (also for names with repeats, for any askers and in
    both modes). *)
Theorem improve_permutation
    (names : list string) (prefs : gmap string (gmap string Q))
    (largeloop : bool) (fuel : nat) (chores : list string)
    (restricted_askers : option (list string)) (result : list string) :
  improve names prefs largeloop fuel chores restricted_askers = Ok result →
  result ≡ₚ chores.
Proof.
  unfold improve, improve_run. intros (st & H & ->)%fmap_Ok.
  apply bind_Ok in H as (order & _ & H).
  apply bind_Ok in H as (m & _ & H).
  by apply improve_loop_Permutation in H.
Qed.

Lemma improve_permutation_abc :
  improve abc_names abc_prefs true 2 abc_chores None
    = Ok ["IB"; "IC"; "IA"]%string ∧
  ["IB"; "IC"; "IA"]%string ≡ₚ abc_chores.
Proof.
  assert (improve abc_names abc_prefs true 2 abc_chores None
          = Ok ["IB"; "IC"; "IA"]%string) as Hrun by (vm_compute; reflexivity).
  split; [exact Hrun|].
  exact (improve_permutation abc_names abc_prefs true 2 abc_chores None _ Hrun).
Defined.

(** ** improve: nobody is worse off, and no acceptable loop is left *)


(** Every person of a loop takes a step of it. *)
Lemma cycle_steps_source (loop : list string) (w : string) :
  w ∈ loop → ∃ k v, cycle_steps loop !! k = Some (w, v).
Proof.
  intros Hw. destruct loop as [|s rest]; [by apply elem_of_nil in Hw|].
  apply list_elem_of_lookup in Hw as [k Hk].
  destruct (lookup_lt_is_Some_2 (tail (s :: rest) ++ [s]) k) as [v Hv].
  { apply lookup_lt_Some in Hk. rewrite length_app. simpl in *. lia. }
  exists k, v. unfold cycle_steps, path_steps.
  apply lookup_zip_with_Some. by exists w, v.
Qed.

Section NobodyWorse.
Context (names : list string) (prefs : gmap string (gmap string Q)).
Context (largeloop : bool).

Lemma holding_insert_eq (cur : list string) i u c :
  index u names = Ok i → (i < length cur)%nat →
  holding names (<[i:=c]> cur) u = Ok c.
Proof.
  intros Hu Hi. apply holding_Ok. exists i. split; [done|].
  by apply list_lookup_insert_eq.
Qed.

(** Who holds what after the chores went along a path found on [chores]:
    everybody on the path has the chore of the next person, the last one
    the chore [cs] of [s]; nobody else is touched. *)
Lemma pass_along_holding chores s cs l : ∀ u cur cur1 z i cur2,
  NoDup (u :: l) →
  (∀ w, w ∈ u :: l → holding names cur w = holding names chores w) →
  holding names chores s = Ok cs →
  pass_along names cur (zip (removelast (u :: l)) (tail (u :: l))) = Ok cur1 →
  last (u :: l) = Some z → index z names = Ok i →
  setitem cur1 i cs = Ok cur2 →
  (∀ a b, (a, b) ∈ path_steps s (u :: l) →
     holding names cur2 a = holding names chores b) ∧
  (∀ w, w ∉ u :: l → holding names cur2 w = holding names cur w).
Proof.
  induction l as [|v l IH];
    intros u cur cur1 z i cur2 Hnd Hsame Hs Hpass Hz Hi Hset.
  - simpl in Hpass, Hz. injection Hpass as <-. injection Hz as <-.
    apply setitem_Ok in Hset as [Hlt ->]. split.
    + intros a b Hab. unfold path_steps in Hab. simpl in Hab.
      apply list_elem_of_singleton in Hab as [= -> ->].
      rewrite Hs. by apply holding_insert_eq.
    + intros w Hw. apply (holding_insert_ne _ _ _ u); [done|].
      intros ->. apply Hw. by left.
  - change (zip (removelast (u :: v :: l)) (tail (u :: v :: l)))
      with ((u, v) :: zip (removelast (v :: l)) (tail (v :: l))) in Hpass.
    simpl in Hpass.
    apply bind_Ok in Hpass as (x & Hx & Hpass).
    apply bind_Ok in Hpass as (iu & Hiu & Hpass).
    apply bind_Ok in Hpass as (cur' & Hcur' & Hpass).
    apply setitem_Ok in Hcur' as [Hlt ->].
    apply NoDup_cons in Hnd as [Hu Hnd].
    assert (∀ w, w ∈ v :: l →
              holding names (<[iu:=x]> cur) w = holding names cur w) as Hkeep.
    { intros w Hw. apply (holding_insert_ne _ _ _ u); [done|]. by intros ->. }
    destruct (IH v (<[iu:=x]> cur) cur1 z i cur2) as [Hsteps Hother]; try done.
    { intros w Hw. rewrite Hkeep by done. apply Hsame. by right. }
    split.
    + intros a b Hab.
      change (path_steps s (u :: v :: l))
        with ((u, v) :: path_steps s (v :: l)) in Hab.
      apply elem_of_cons in Hab as [[= -> ->]|Hab]; [|by apply Hsteps].
      rewrite (Hother u Hu), <- (Hsame v) by (right; by left).
      rewrite Hx. by apply holding_insert_eq.
    + intros w Hw. rewrite Hother.
      * apply (holding_insert_ne _ _ _ u); [done|]. intros ->. apply Hw. by left.
      * intros Hin. apply Hw. by right.
Qed.

Lemma execute_trade_holding chores n loop chores' :
  NoDup loop → head loop = Some n →
  execute_trade names chores n loop = Ok chores' →
  (∀ a b, (a, b) ∈ cycle_steps loop →
     holding names chores' a = holding names chores b) ∧
  (∀ w, w ∉ loop → holding names chores' w = holding names chores w).
Proof.
  intros Hnd Hhead H. destruct loop as [|n' l]; [done|]. injection Hhead as ->.
  unfold execute_trade in H.
  apply bind_Ok in H as (nchore & Hnchore & H).
  apply bind_Ok in H as (cur1 & Hpass & H).
  apply bind_Ok in H as (z & Hz & H).
  apply bind_Ok in H as (i & Hi & H).
  destruct (last (n :: l)) as [z'|] eqn:Hlast; [|done]. injection Hz as ->.
  by apply (pass_along_holding chores n nchore l n chores cur1 z i chores').
Qed.

(** One trade: everybody's own chore costs them at most what it did. *)
Lemma ask_nobody_worse n st st' w q :
  NoDup names →
  ask names prefs largeloop n st = Ok st' →
  cost_of_swap names (st_chores st) prefs w w = Ok q →
  ∃ q', cost_of_swap names (st_chores st') prefs w w = Ok q' ∧ q' <= q.
Proof.
  intros Hnames
    [[-> _]|(loop & imp & chores' & m & Hne & Hseek & Hex & _ & ->)]%ask_Ok Hq.
  { exists q. split; [done|]. lra. }
  simpl.
  destruct (seek_loop_gains _ _ _ _ _ _ _ Hnames Hseek)
    as (Hnd & Hhead & _ & _ & gs & Hgs & _ & Hok).
  destruct (execute_trade_holding _ _ _ _ Hnd Hhead Hex) as [Hsteps Hother].
  destruct (decide (w ∈ loop)) as [Hw|Hw].
  - destruct (cycle_steps_source loop w Hw) as (k & v & Hk).
    destruct (gains_of_lookup _ _ _ _ _ _ _ _ Hgs Hk) as (cu & cv & Hcu & Hcv & Hg).
    destruct (banked_ok_lookup _ _ _ _ Hok ltac:(lra) Hg) as [Hge _].
    exists cv. split.
    + unfold cost_of_swap in *. rewrite (Hsteps w v); [done|].
      by eapply list_elem_of_lookup_2.
    + assert (cu = q) as <- by congruence. lra.
  - exists q. split; [|lra]. unfold cost_of_swap in *. by rewrite Hother.
Qed.

Lemma improve_pass_nobody_worse order w : ∀ st st' q,
  NoDup names →
  improve_pass names prefs largeloop order st = Ok st' →
  cost_of_swap names (st_chores st) prefs w w = Ok q →
  ∃ q', cost_of_swap names (st_chores st') prefs w w = Ok q' ∧ q' <= q.
Proof.
  induction order as [|n order IH]; intros st st' q Hnames H Hq; simpl in H.
  - injection H as <-. exists q. split; [done|]. lra.
  - apply bind_Ok in H as (st1 & Hask & H).
    destruct (ask_nobody_worse _ _ _ _ _ Hnames Hask Hq) as (q1 & Hq1 & Hle1).
    destruct (IH _ _ _ Hnames H Hq1) as (q' & Hq' & Hle).
    exists q'. split; [done|]. lra.
Qed.

Lemma improve_loop_nobody_worse fuel order w : ∀ st st' q,
  NoDup names →
  improve_loop names prefs largeloop fuel order st = Ok st' →
  cost_of_swap names (st_chores st) prefs w w = Ok q →
  ∃ q', cost_of_swap names (st_chores st') prefs w w = Ok q' ∧ q' <= q.
Proof.
  induction fuel as [|fuel IH]; intros st st' q Hnames H Hq; [done|].
  simpl in H. apply bind_Ok in H as (st1 & Hpass & H).
  destruct (improve_pass_nobody_worse _ w _ _ q Hnames Hpass Hq)
    as (q1 & Hq1 & Hle1).
  destruct (st_made_trade st1).
  - destruct (IH _ _ _ Hnames H Hq1) as (q' & Hq' & Hle).
    exists q'. split; [done|]. lra.
  - injection H as <-. by exists q1.
Qed.
End NobodyWorse.

(** X4. [improve] is agreeable to everybody: on distinct names, the chore a
    person holds in the result costs that person at most what the chore
    held at the start did. *)
Theorem improve_nobody_worse
    (names : list string) (prefs : gmap string (gmap string Q))
    (largeloop : bool) (fuel : nat) (chores : list string)
    (restricted_askers : option (list string)) (result : list string)
    (w : string) (q : Q) :
  NoDup names →
  improve names prefs largeloop fuel chores restricted_askers = Ok result →
  cost_of_swap names chores prefs w w = Ok q →
  ∃ q', cost_of_swap names result prefs w w = Ok q' ∧ q' <= q.
Proof.
  unfold improve, improve_run. intros Hnames (st & H & ->)%fmap_Ok Hq.
  apply bind_Ok in H as (order & _ & H).
  apply bind_Ok in H as (m & _ & H).
  by apply (improve_loop_nobody_worse _ _ _ _ _ w _ _ q Hnames H).
Qed.


Lemma improve_nobody_worse_abc :
  NoDup abc_names ∧
  improve abc_names abc_prefs true 2 abc_chores None
    = Ok ["IB"; "IC"; "IA"]%string ∧
  cost_of_swap abc_names abc_chores abc_prefs "A" "A" = Ok 3 ∧
  ∃ q', cost_of_swap abc_names ["IB"; "IC"; "IA"]%string abc_prefs "A" "A"
          = Ok q' ∧ q' <= 3.
Proof.
  assert (NoDup abc_names) as Hnd by compute_done.
  assert (improve abc_names abc_prefs true 2 abc_chores None
          = Ok ["IB"; "IC"; "IA"]%string) as Hrun by (vm_compute; reflexivity).
  assert (cost_of_swap abc_names abc_chores abc_prefs "A" "A" = Ok 3) as Hq
    by (vm_compute; reflexivity).
  split; [exact Hnd|]. split; [exact Hrun|]. split; [exact Hq|].
  exact (improve_nobody_worse abc_names abc_prefs true 2 abc_chores None _
           "A" 3 Hnd Hrun Hq).
Defined.


(** ** improve: the misery of the result *)







(** ** The weekly bump of main *)

Lemma positions_from_spec (chore : string) (chores : list string) :
  ∀ k j, j ∈ positions_from k chore chores ↔
         (k ≤ j)%nat ∧ chores !! (j - k)%nat = Some chore.
Proof.
  induction chores as [|c chores IH]; intros k j; simpl.
  - split; [by intros ?%elem_of_nil|by intros [_ ?]].
  - destruct (decide (c = chore)) as [->|Hne].
    + rewrite elem_of_cons, IH. split.
      * intros [->|[Hle Hj]].
        -- split; [lia|]. by replace (k - k)%nat with 0%nat by lia.
        -- split; [lia|]. by replace (j - k)%nat with (S (j - S k)) by lia.
      * intros [Hle Hj]. destruct (decide (j = k)) as [->|Hjk]; [by left|].
        right. split; [lia|].
        by replace (j - k)%nat with (S (j - S k)) in Hj by lia.
    + rewrite IH. split.
      * intros [Hle Hj]. split; [lia|].
        by replace (j - k)%nat with (S (j - S k)) by lia.
      * intros [Hle Hj]. destruct (decide (j = k)) as [->|Hjk].
        -- replace (k - k)%nat with 0%nat in Hj by lia. simpl in Hj. congruence.
        -- split; [lia|].
           by replace (j - k)%nat with (S (j - S k)) in Hj by lia.
Qed.

Lemma positions_from_NoDup (chore : string) (chores : list string) :
  ∀ k, NoDup (positions_from k chore chores).
Proof.
  induction chores as [|c chores IH]; intros k; simpl; [apply NoDup_nil_2|].
  destruct (decide (c = chore)); [|done].
  apply NoDup_cons. split; [|done].
  intros [Hle _]%positions_from_spec. lia.
Qed.

Lemma positions_from_absent (chore : string) (chores : list string) k :
  chore ∉ chores → positions_from k chore chores = [].
Proof.
  intros Hno. destruct (positions_from k chore chores) as [|j l] eqn:E; [done|].
  assert (j ∈ positions_from k chore chores) as Hj by (rewrite E; by left).
  apply positions_from_spec in Hj as [_ Hj].
  destruct Hno. by eapply list_elem_of_lookup_2.
Qed.

Lemma positions_from_only (chore : string) (chores : list string) i :
  ∀ k, chores !! i = Some chore → (∀ j, chores !! j = Some chore → j = i) →
       positions_from k chore chores = [(k + i)%nat].
Proof.
  revert i. induction chores as [|c chores IH]; intros i k Hi Honly; [done|].
  simpl. destruct i as [|i]; simpl in Hi.
  - injection Hi as ->. rewrite decide_True by done.
    rewrite positions_from_absent.
    + by replace (k + 0)%nat with k by lia.
    + intros (j & Hj)%list_elem_of_lookup_1. by specialize (Honly (S j) Hj).
  - rewrite decide_False.
    + rewrite (IH i (S k) Hi).
      * by replace (S k + i)%nat with (k + S i)%nat by lia.
      * intros j Hj. specialize (Honly (S j) Hj). lia.
    + intros ->. by specialize (Honly 0%nat eq_refl).
Qed.

Lemma add_sad_elem (n m : string) (sad : list string) :
  m ∈ add_sad n sad ↔ m ∈ sad ∨ m = n.
Proof.
  unfold add_sad, mem. case_bool_decide as Hn.
  - split; [by left|]. by intros [?| ->].
  - rewrite elem_of_app, list_elem_of_singleton. done.
Qed.

Lemma add_sad_NoDup (n : string) (sad : list string) :
  NoDup sad → NoDup (add_sad n sad).
Proof.
  intros Hnd. unfold add_sad, mem. case_bool_decide as Hn; [done|].
  apply NoDup_app. split; [done|]. split; [|apply NoDup_singleton].
  intros x Hx ->%list_elem_of_singleton. done.
Qed.

(** The place a weekly chore is bumped to is another place of the list. *)
Lemma bump_target_Ok (weekno : Z) (len i i2 : nat) :
  bump_target weekno len i = Ok i2 → (i < len)%nat →
  (2 ≤ len)%nat ∧ (i2 < len)%nat ∧ i2 ≠ i ∧
  i2 = Z.to_nat ((Z.of_nat i + (weekno mod (Z.of_nat len - 1) + 1))
                 mod Z.of_nat len).
Proof.
  unfold bump_target. intros H Hi.
  destruct (decide (Z.of_nat len - 1 = 0)%Z) as [|Hne1]; [done|].
  destruct (decide (len = 0%nat)) as [|Hne0]; [done|].
  injection H as <-.
  assert (2 ≤ len)%nat as Hlen by lia. split; [done|].
  pose proof (Z.mod_pos_bound weekno (Z.of_nat len - 1) ltac:(lia)) as Hoff.
  set (off := (weekno mod (Z.of_nat len - 1) + 1)%Z) in *.
  pose proof (Z.mod_pos_bound (Z.of_nat i + off) (Z.of_nat len) ltac:(lia))
    as Hmod.
  split; [lia|]. split; [|done].
  intros E.
  assert ((Z.of_nat i + off) mod Z.of_nat len = Z.of_nat i)%Z as E' by lia.
  destruct (Z_lt_le_dec (Z.of_nat i + off) (Z.of_nat len)) as [Hlt|Hge].
  - rewrite Z.mod_small in E' by lia. lia.
  - replace (Z.of_nat i + off)%Z
      with (Z.of_nat i + off - Z.of_nat len + 1 * Z.of_nat len)%Z in E' by lia.
    rewrite Z.mod_add, Z.mod_small in E' by lia. lia.
Qed.

(** One bump: the weekly chore at place [i] and the chore at the target
    change places, and the two people go to [sad]. *)
Lemma bump_at_Ok names weekno chore i st st' :
  bump_at names weekno chore i st = Ok st' → st.1 !! i = Some chore →
  ∃ i2 c2 ni ni2,
    bump_target weekno (length st.1) i = Ok i2 ∧ i2 ≠ i ∧
    st.1 !! i2 = Some c2 ∧ names !! i = Some ni ∧ names !! i2 = Some ni2 ∧
    st' = (<[i2:=chore]> (<[i:=c2]> st.1), add_sad ni2 (add_sad ni st.2)).
Proof.
  intros H Hi. unfold bump_at in H.
  apply bind_Ok in H as (i2 & Hi2 & H).
  apply bind_Ok in H as (c2 & Hc2 & H).
  apply bind_Ok in H as (chores1 & H1 & H).
  apply bind_Ok in H as (chores2 & H2 & H).
  apply bind_Ok in H as (ni & Hni & H).
  apply bind_Ok in H as (ni2 & Hni2 & H). injection H as <-.
  apply getitem_Ok in Hc2, Hni, Hni2.
  apply setitem_Ok in H1 as [_ ->]. apply setitem_Ok in H2 as [_ ->].
  destruct (bump_target_Ok _ _ _ _ Hi2) as (_ & _ & Hne & _).
  { by eapply lookup_lt_Some. }
  by exists i2, c2, ni, ni2.
Qed.

Lemma bumped_refl names st : bumped names st st.
Proof.
  split; [done|]. split; [done|]. split; [done|].
  split; [by left|]. by left.
Qed.

Lemma bumped_trans names st1 st2 st3 :
  bumped names st1 st2 → bumped names st2 st3 → bumped names st1 st3.
Proof.
  intros (Hp1 & Hn1 & Hs1 & Hi1 & Hk1) (Hp2 & Hn2 & Hs2 & Hi2 & Hk2).
  split; [by rewrite Hp2|]. split; [tauto|]. split; [by auto|]. split.
  - intros n [Hn|Hn]%Hi2; [by apply Hi1|by right].
  - intros k. destruct (Hk2 k) as [E2|Hsad2]; [|by right].
    destruct (Hk1 k) as [E1|(n & Hn & Hsad1)]; [left; congruence|].
    right. exists n. split; [done|]. by apply Hs2.
Qed.

Lemma bump_at_bumped names weekno chore i st st' :
  bump_at names weekno chore i st = Ok st' → st.1 !! i = Some chore →
  bumped names st st'.
Proof.
  intros H Hi.
  destruct (bump_at_Ok _ _ _ _ _ _ H Hi)
    as (i2 & c2 & ni & ni2 & _ & Hne & Hc2 & Hni & Hni2 & ->).
  split; [|split; [|split; [|split]]]; simpl.
  - by apply Permutation_insert_swap.
  - intros Hnd. by do 2 apply add_sad_NoDup.
  - intros n Hn. apply add_sad_elem. left. apply add_sad_elem. by left.
  - intros n [[Hn| ->]%add_sad_elem| ->]%add_sad_elem.
    + by left.
    + right. by eapply list_elem_of_lookup_2.
    + right. by eapply list_elem_of_lookup_2.
  - intros k. destruct (decide (k = i2)) as [->|Hk2].
    { right. exists ni2. split; [done|]. apply add_sad_elem. by right. }
    destruct (decide (k = i)) as [->|Hk].
    { right. exists ni. split; [done|]. apply add_sad_elem. left.
      apply add_sad_elem. by right. }
    left. by rewrite !list_lookup_insert_ne.
Qed.

Lemma bump_all_bumped names weekno chore positions : ∀ st st',
  NoDup positions → (∀ j, j ∈ positions → st.1 !! j = Some chore) →
  bump_all names weekno chore positions st = Ok st' →
  bumped names st st'.
Proof.
  induction positions as [|i positions IH]; intros st st' Hnd Hall H;
    simpl in H.
  - injection H as <-. apply bumped_refl.
  - apply bind_Ok in H as (st1 & Hat & H).
    apply NoDup_cons in Hnd as [Hi Hnd].
    assert (st.1 !! i = Some chore) as Hci by (apply Hall; by left).
    apply (bumped_trans _ _ st1); [by eapply bump_at_bumped|].
    apply IH; [done| |done].
    intros j Hj.
    destruct (bump_at_Ok _ _ _ _ _ _ Hat Hci)
      as (i2 & c2 & ni & ni2 & Hi2 & _ & Hc2 & _ & _ & ->). simpl.
    assert (i2 < length st.1)%nat as Hlt2 by (by eapply lookup_lt_Some).
    assert (i < length st.1)%nat as Hlt by (by eapply lookup_lt_Some).
    destruct (decide (j = i2)) as [->|Hj2].
    + apply list_lookup_insert_eq. by rewrite length_insert.
    + rewrite list_lookup_insert_ne by done.
      rewrite list_lookup_insert_ne by (intros ->; done).
      apply Hall. by right.
Qed.

Lemma bump_chores_bumped names weekno weekly : ∀ st st',
  bump_chores names weekno weekly st = Ok st' → bumped names st st'.
Proof.
  induction weekly as [|chore weekly IH]; intros st st' H; simpl in H.
  - injection H as <-. apply bumped_refl.
  - apply bind_Ok in H as (st1 & Hall & H).
    apply (bumped_trans _ _ st1); [|by apply IH].
    apply (bump_all_bumped _ _ _ _ _ _ (positions_from_NoDup _ _ _)) in Hall;
      [done|].
    intros j [_ Hj]%positions_from_spec.
    by replace (j - 0)%nat with j in Hj by lia.
Qed.

(** X7. The weekly bump only rearranges: whenever it goes through, the
    chores after it are the chores before it in another order. *)
Theorem weekly_bump_permutation
    (names : list string) (weekno : Z) (chores chores' sad : list string) :
  weekly_bump names weekno chores = Ok (chores', sad) →
  chores' ≡ₚ chores.
Proof.
  intros H. apply bump_chores_bumped in H as (Hperm & _). exact Hperm.
Qed.

(** X8. The disturbed people of the weekly bump: [sad] holds people of
    [names], each once, and everybody whose place has another chore after
    the bump than before is in it. *)
Theorem weekly_bump_sad
    (names : list string) (weekno : Z) (chores chores' sad : list string) :
  weekly_bump names weekno chores = Ok (chores', sad) →
  NoDup sad ∧ (∀ n, n ∈ sad → n ∈ names) ∧
  ∀ k, chores' !! k ≠ chores !! k → ∃ n, names !! k = Some n ∧ n ∈ sad.
Proof.
  intros H. apply bump_chores_bumped in H as (_ & Hnd & _ & Hin & Hk).
  simpl in *. split; [apply Hnd, NoDup_nil_2|]. split.
  - intros n [Hn|Hn]%Hin; [by apply elem_of_nil in Hn|done].
  - intros k Hne. by destruct (Hk k) as [E|Hsad].
Qed.

Lemma bump_chores_absent names weekno weekly st :
  (∀ w, w ∈ weekly → w ∉ st.1) → bump_chores names weekno weekly st = Ok st.
Proof.
  induction weekly as [|chore weekly IH]; intros Hno; simpl; [done|].
  rewrite positions_from_absent by (apply Hno; by left). simpl.
  apply IH. intros w Hw. apply Hno. by right.
Qed.

Lemma bump_chores_app names weekno pre post st :
  bump_chores names weekno (pre ++ post) st
  = st' ← bump_chores names weekno pre st; bump_chores names weekno post st'.
Proof.
  revert st. induction pre as [|chore pre IH]; intros st; simpl; [done|].
  destruct (bump_all names weekno chore (positions_from 0 chore st.1) st)
    as [st1| |]; simpl; [apply IH|done..].
Qed.

(** A weekly chore on the list disturbs somebody. *)
Lemma bump_chores_disturbs names weekno weekly : ∀ st st' c,
  bump_chores names weekno weekly st = Ok st' →
  c ∈ weekly → c ∈ st.1 → st'.2 ≠ [].
Proof.
  induction weekly as [|chore weekly IH]; intros st st' c H Hc Hin;
    [by apply elem_of_nil in Hc|].
  simpl in H. apply bind_Ok in H as (st1 & Hall & H).
  pose proof (bump_chores_bumped _ _ _ _ _ H) as (_ & _ & Hsub & _).
  apply elem_of_cons in Hc as [->|Hc].
  - apply list_elem_of_lookup_1 in Hin as (i & Hi).
    assert (i ∈ positions_from 0 chore st.1) as Hpos.
    { apply positions_from_spec. split; [lia|].
      by replace (i - 0)%nat with i by lia. }
    destruct (positions_from 0 chore st.1) as [|j positions] eqn:E;
      [by apply elem_of_nil in Hpos|].
    assert (st.1 !! j = Some chore) as Hj.
    { assert (j ∈ positions_from 0 chore st.1) as [_ Hj]%positions_from_spec
        by (rewrite E; by left).
      by replace (j - 0)%nat with j in Hj by lia. }
    simpl in Hall. apply bind_Ok in Hall as (st0 & Hat & Hall).
    destruct (bump_at_Ok _ _ _ _ _ _ Hat Hj)
      as (i2 & c2 & ni & ni2 & _ & _ & _ & _ & _ & ->).
    assert (NoDup positions ∧ ∀ k, k ∈ positions →
              (<[i2:=chore]> (<[j:=c2]> st.1)) !! k = Some chore) as [Hnd Hk].
    { pose proof (positions_from_NoDup chore st.1 0) as Hnd. rewrite E in Hnd.
      apply NoDup_cons in Hnd as [Hjn Hnd]. split; [done|].
      intros k Hk. assert (st.1 !! k = Some chore) as Hck.
      { assert (k ∈ positions_from 0 chore st.1) as [_ Hk']%positions_from_spec
          by (rewrite E; by right).
        by replace (k - 0)%nat with k in Hk' by lia. }
      destruct (decide (k = i2)) as [->|Hk2].
      - apply list_lookup_insert_eq. rewrite length_insert.
        by eapply lookup_lt_Some.
      - rewrite list_lookup_insert_ne by done.
        by rewrite list_lookup_insert_ne by (intros ->; done). }
    apply bump_all_bumped in Hall as (_ & _ & Hsub0 & _); [|done|done].
    intros E'. assert (ni2 ∈ st'.2) as Hin2.
    { apply Hsub, Hsub0. simpl. apply add_sad_elem. by right. }
    rewrite E' in Hin2. by apply elem_of_nil in Hin2.
  - apply (IH st1 st' c H Hc).
    apply (bump_all_bumped _ _ _ _ _ _ (positions_from_NoDup _ _ _)) in Hall
      as (Hperm & _).
    + by rewrite Hperm.
    + intros j [_ Hj]%positions_from_spec.
      by replace (j - 0)%nat with j in Hj by lia.
Qed.

(** X9. Somebody is disturbed exactly when a weekly chore (Wild, Lawn or
    Dishes) is on the list; and when nobody is, the bump has left the chores
    as they were. *)
Theorem weekly_bump_nobody
    (names : list string) (weekno : Z) (chores chores' sad : list string) :
  weekly_bump names weekno chores = Ok (chores', sad) →
  (sad = [] ↔ ∀ c, c ∈ weekly_chores → c ∉ chores) ∧
  (sad = [] → chores' = chores).
Proof.
  intros H. split; [split|].
  - intros -> c Hc Hin.
    by apply (bump_chores_disturbs _ _ _ _ _ c H Hc Hin).
  - intros Hno. unfold weekly_bump in H.
    rewrite bump_chores_absent in H by done. by injection H as <- <-.
  - intros ->. apply bump_chores_bumped in H as (_ & _ & _ & _ & Hk).
    simpl in Hk. apply list_eq. intros k.
    destruct (Hk k) as [E|(n & _ & Hn)]; [done|by apply elem_of_nil in Hn].
Qed.

(** X10. With a single weekly chore on the list, the bump swaps it with the
    chore [(weekno mod (len-1)) + 1] places further on, going round the end
    of the list; this is never its own place.  The disturbed people are the
    two at these places. *)
Theorem weekly_bump_single
    (names : list string) (weekno : Z) (chores chores' sad : list string)
    (c : string) (i : nat) :
  c ∈ weekly_chores → chores !! i = Some c →
  (∀ j c', chores !! j = Some c' → c' ∈ weekly_chores → j = i) →
  weekly_bump names weekno chores = Ok (chores', sad) →
  ∃ i2 c2 ni ni2,
    i2 = Z.to_nat ((Z.of_nat i
                    + (weekno mod (Z.of_nat (length chores) - 1) + 1))
                   mod Z.of_nat (length chores)) ∧
    i2 ≠ i ∧ chores !! i2 = Some c2 ∧
    chores' = <[i2:=c]> (<[i:=c2]> chores) ∧
    names !! i = Some ni ∧ names !! i2 = Some ni2 ∧
    sad = add_sad ni2 [ni].
Proof.
  intros Hc Hi Honly H. unfold weekly_bump in H.
  assert (∀ w, w ∈ weekly_chores → w ≠ c → w ∉ chores) as Hothers.
  { intros w Hw Hne (j & Hj)%list_elem_of_lookup_1.
    specialize (Honly j w Hj Hw). subst j. congruence. }
  assert (NoDup weekly_chores) as Hnd by compute_done.
  apply list_elem_of_split in Hc as (pre & post & E). rewrite E in *.
  apply NoDup_app in Hnd as (_ & Hpre & Hpost).
  apply NoDup_cons in Hpost as [Hpost _].
  rewrite bump_chores_app in H.
  rewrite bump_chores_absent, ret_bind in H.
  2:{ intros w Hw. apply Hothers.
      - apply elem_of_app. by left.
      - intros ->. apply (Hpre c Hw). by left. }
  simpl in H. rewrite (positions_from_only c chores i) in H.
  2:{ done. }
  2:{ intros j Hj. apply (Honly j c Hj). apply elem_of_app. right. by left. }
  simpl in H. apply bind_Ok in H as (st1 & Hall & H).
  apply bind_Ok in Hall as (st0 & Hat & Hall). injection Hall as ->.
  destruct (bump_at_Ok _ _ _ _ _ _ Hat Hi)
    as (i2 & c2 & ni & ni2 & Hi2 & Hne & Hc2 & Hni & Hni2 & ->).
  simpl in *.
  destruct (bump_target_Ok _ _ _ _ Hi2) as (_ & _ & _ & Hi2');
    [by eapply lookup_lt_Some|].
  rewrite bump_chores_absent in H.
  - injection H as <- <-. by exists i2, c2, ni, ni2.
  - intros w Hw. simpl.
    rewrite (Permutation_insert_swap chores i i2 c c2 Hi Hc2).
    apply Hothers; [apply elem_of_app; right; by right|by intros ->].
Qed.

(** X11. One chore only, and a weekly one: the bump divides by zero. *)
Theorem weekly_bump_one_chore
    (names : list string) (weekno : Z) (c : string) :
  c ∈ weekly_chores → weekly_bump names weekno [c] = Raise ZeroDivisionError.
Proof.
  intros Hc. unfold weekly_chores in Hc.
  repeat (apply elem_of_cons in Hc as [->|Hc]); [done..|].
  by apply elem_of_nil in Hc.
Qed.

(** The bump at work: in week 5, Wild goes two places on, from A to C. *)
Lemma weekly_bump_permutation_abc :
  weekly_bump abc_names 5 ["Wild"; "X"; "Y"]%string
    = Ok (["Y"; "X"; "Wild"]%string, ["A"; "C"]%string) ∧
  ["Y"; "X"; "Wild"]%string ≡ₚ ["Wild"; "X"; "Y"]%string.
Proof.
  assert (weekly_bump abc_names 5 ["Wild"; "X"; "Y"]%string
          = Ok (["Y"; "X"; "Wild"]%string, ["A"; "C"]%string)) as Hrun
    by (vm_compute; reflexivity).
  split; [exact Hrun|].
  exact (weekly_bump_permutation abc_names 5 _ _ _ Hrun).
Defined.

Lemma weekly_bump_sad_abc :
  weekly_bump abc_names 5 ["Wild"; "X"; "Y"]%string
    = Ok (["Y"; "X"; "Wild"]%string, ["A"; "C"]%string) ∧
  NoDup ["A"; "C"]%string ∧ (∀ n, n ∈ ["A"; "C"]%string → n ∈ abc_names) ∧
  ∀ k, ["Y"; "X"; "Wild"]%string !! k ≠ ["Wild"; "X"; "Y"]%string !! k →
       ∃ n, abc_names !! k = Some n ∧ n ∈ ["A"; "C"]%string.
Proof.
  assert (weekly_bump abc_names 5 ["Wild"; "X"; "Y"]%string
          = Ok (["Y"; "X"; "Wild"]%string, ["A"; "C"]%string)) as Hrun
    by (vm_compute; reflexivity).
  split; [exact Hrun|].
  exact (weekly_bump_sad abc_names 5 _ _ _ Hrun).
Defined.

Lemma weekly_bump_nobody_abc :
  weekly_bump abc_names 5 ["X"; "Y"; "Z"]%string
    = Ok (["X"; "Y"; "Z"]%string, []) ∧
  ((@nil string = [] ↔ ∀ c, c ∈ weekly_chores → c ∉ ["X"; "Y"; "Z"]%string) ∧
   (@nil string = [] → ["X"; "Y"; "Z"]%string = ["X"; "Y"; "Z"]%string)).
Proof.
  assert (weekly_bump abc_names 5 ["X"; "Y"; "Z"]%string
          = Ok (["X"; "Y"; "Z"]%string, [])) as Hrun
    by (vm_compute; reflexivity).
  split; [exact Hrun|].
  exact (weekly_bump_nobody abc_names 5 _ _ _ Hrun).
Defined.

Lemma weekly_bump_single_abc :
  "Wild"%string ∈ weekly_chores ∧
  ["Wild"; "X"; "Y"]%string !! 0%nat = Some "Wild"%string ∧
  weekly_bump abc_names 5 ["Wild"; "X"; "Y"]%string
    = Ok (["Y"; "X"; "Wild"]%string, ["A"; "C"]%string) ∧
  ∃ i2 c2 ni ni2,
    i2 = Z.to_nat ((Z.of_nat 0 + (5 mod (Z.of_nat 3 - 1) + 1)) mod Z.of_nat 3) ∧
    i2 ≠ 0%nat ∧ ["Wild"; "X"; "Y"]%string !! i2 = Some c2 ∧
    ["Y"; "X"; "Wild"]%string
      = <[i2:="Wild"%string]> (<[0%nat:=c2]> ["Wild"; "X"; "Y"]%string) ∧
    abc_names !! 0%nat = Some ni ∧ abc_names !! i2 = Some ni2 ∧
    ["A"; "C"]%string = add_sad ni2 [ni].
Proof.
  assert ("Wild"%string ∈ weekly_chores) as Hc by (by left).
  assert (weekly_bump abc_names 5 ["Wild"; "X"; "Y"]%string
          = Ok (["Y"; "X"; "Wild"]%string, ["A"; "C"]%string)) as Hrun
    by (vm_compute; reflexivity).
  split; [exact Hc|]. split; [reflexivity|]. split; [exact Hrun|].
  apply (weekly_bump_single abc_names 5 ["Wild"; "X"; "Y"]%string _ _
           "Wild" 0 Hc eq_refl); [|exact Hrun].
  intros j c' Hj Hc'.
  destruct j as [|[|[|j]]]; simpl in Hj; [done| | |done];
    injection Hj as <-; exfalso;
    repeat (apply elem_of_cons in Hc' as [Hc'|Hc']; [discriminate Hc'|]);
    by apply elem_of_nil in Hc'.
Defined.

Lemma weekly_bump_one_chore_example :
  "Lawn"%string ∈ weekly_chores ∧
  weekly_bump ["A"]%string 5 ["Lawn"]%string = Raise ZeroDivisionError.
Proof.
  assert ("Lawn"%string ∈ weekly_chores) as Hc by (right; by left).
  split; [exact Hc|].
  exact (weekly_bump_one_chore ["A"]%string 5 "Lawn" Hc).
Defined.

(** ** The rotation at the start of a cycle, and the plan of the week *)

Lemma rotate_Permutation {A} (k : nat) (l : list A) : rotate k l ≡ₚ l.
Proof.
  unfold rotate. destruct l as [|a l]; [done|].
  rewrite Permutation_app_comm. by rewrite take_drop.
Qed.

(** [rotate k] takes what is at place [i] to place [i + k], round the end. *)
Lemma rotate_lookup {A} (k : nat) (l : list A) (i : nat) (x : A) :
  l !! i = Some x → rotate k l !! ((i + k) mod length l)%nat = Some x.
Proof.
  intros Hi. pose proof (lookup_lt_Some _ _ _ Hi) as Hlt.
  unfold rotate. destruct l as [|a l]; [done|].
  set (len := length (a :: l)) in *.
  assert (len ≠ 0)%nat as Hlen by (unfold len; simpl; lia).
  pose proof (Nat.mod_upper_bound k len Hlen) as Hk.
  rewrite <- Nat.Div0.add_mod_idemp_r.
  set (k' := (k mod len)%nat) in *.
  destruct (decide (i < len - k')%nat) as [Hsmall|Hbig].
  - rewrite Nat.mod_small by lia.
    rewrite lookup_app_r; rewrite length_drop; fold len; [|lia].
    rewrite lookup_take_lt by lia. rewrite <- Hi. f_equal. lia.
  - replace ((i + k') mod len)%nat with (i - (len - k'))%nat.
    + rewrite lookup_app_l by (rewrite length_drop; fold len; lia).
      rewrite lookup_drop. rewrite <- Hi. f_equal. lia.
    + apply (Nat.mod_unique _ _ 1%nat); lia.
Qed.

Lemma fresh_cycle_Ok (chores : list string) (fourweekno : Z) (r : list string) :
  fresh_cycle chores fourweekno = Ok r →
  chores ≠ [] ∧
  r = rotate (Z.to_nat (fourweekno mod Z.of_nat (length chores))) chores.
Proof.
  unfold fresh_cycle. destruct (decide (length chores = 0%nat)); [done|].
  intros [= <-]. split; [|done]. by intros ->.
Qed.

(** X12. The rotation at the start of a cycle moves every chore [fourweekno]
    places on, going round the end of the list: the chore at place [i] comes
    to place [(i + fourweekno) mod len].  So from one cycle to the next
    every chore goes to the next person, and nothing is lost. *)
Theorem fresh_cycle_shift
    (chores : list string) (fourweekno : Z) (r : list string) :
  fresh_cycle chores fourweekno = Ok r →
  length r = length chores ∧
  ∀ i c, chores !! i = Some c →
    r !! Z.to_nat ((Z.of_nat i + fourweekno) mod Z.of_nat (length chores))
      = Some c.
Proof.
  intros [Hne ->]%fresh_cycle_Ok. split.
  { apply Permutation_length, rotate_Permutation. }
  intros i c Hi.
  assert (0 < Z.of_nat (length chores))%Z as Hlen by (destruct chores; [done|simpl; lia]).
  pose proof (Z.mod_pos_bound fourweekno _ Hlen) as Hk.
  rewrite <- (rotate_lookup (Z.to_nat (fourweekno mod Z.of_nat (length chores)))
                chores i c Hi).
  f_equal. rewrite <- Zplus_mod_idemp_r.
  apply Nat2Z.inj. rewrite Nat2Z.inj_mod, Nat2Z.inj_add, !Z2Nat.id; [done|lia|].
  apply Z.mod_pos_bound. lia.
Qed.

Lemma fresh_cycle_shift_example :
  fresh_cycle ["X"; "Y"; "Z"]%string 7 = Ok ["Z"; "X"; "Y"]%string ∧
  length ["Z"; "X"; "Y"]%string = length ["X"; "Y"; "Z"]%string ∧
  ∀ i c, ["X"; "Y"; "Z"]%string !! i = Some c →
    ["Z"; "X"; "Y"]%string
      !! Z.to_nat ((Z.of_nat i + 7) mod Z.of_nat (length ["X"; "Y"; "Z"]%string))
      = Some c.
Proof.
  assert (fresh_cycle ["X"; "Y"; "Z"]%string 7 = Ok ["Z"; "X"; "Y"]%string)
    as Hrun by (vm_compute; reflexivity).
  split; [exact Hrun|].
  exact (fresh_cycle_shift _ 7 _ Hrun).
Defined.

Lemma fresh_cycle_Permutation (chores : list string) (fourweekno : Z) r :
  fresh_cycle chores fourweekno = Ok r → r ≡ₚ chores.
Proof. intros [_ ->]%fresh_cycle_Ok. apply rotate_Permutation. Qed.

Lemma week_plan_permutation_aux
    (names : list string) (prefs : gmap string (gmap string Q)) (fuel : nat)
    (hist : history) (moncy : date) (chores : list string)
    (fourweekno weekno : Z) (final : list string) :
  week_plan names prefs fuel hist moncy chores fourweekno weekno = Ok final →
  ∃ base full,
    choose_baseline hist moncy names chores fourweekno weekno
      = Ok (base, full) ∧
    final ≡ₚ base ∧ (full = true → base ≡ₚ chores).
Proof.
  unfold week_plan, initial_condition, choose_baseline.
  intros (ic & Hic & H)%bind_Ok. destruct ic as [[chores' full] sad].
  assert (final ≡ₚ chores') as Hfinal.
  { unfold optimise in H. destruct full; by eapply improve_permutation_aux. }
  destruct (decide (weekno mod 4 = 0)%Z) as [Hstart|Hcont].
  - apply bind_Ok in Hic as (r & Hr & [= <- <- <-]).
    exists r, true. rewrite Hr. split; [done|]. split; [done|].
    intros _. by apply (fresh_cycle_Permutation _ fourweekno).
  - apply bind_Ok in Hic as ([base full'] & Hbase & Hic).
    apply bind_Ok in Hic as ([chores1 sad1] & Hbump & [= <- <- <-]).
    apply bump_chores_bumped in Hbump as (Hperm & _). simpl in Hperm.
    exists base, full'. split; [done|]. split; [by rewrite Hfinal|].
    intros ->.
    destruct (get_from_current_cycle hist moncy names chores) as [c|e|];
      [done| |done].
    apply bind_Ok in Hbase as (r & Hr & [= <-]).
    by apply (fresh_cycle_Permutation _ fourweekno).
Qed.

(** X13. The plan of the week hands out the baseline: whenever main's
    computation from the week's people and chores to the final assignment
    goes through, the final chores are the baseline chosen (the rotated
    list, or the one of [get_from_current_cycle]) in another order; and
    whenever a full improvement was asked for (a cycle starts, or the cycle
    record could not be used), they are the chores of the week in another
    order. *)
Theorem week_plan_permutation
    (names : list string) (prefs : gmap string (gmap string Q)) (fuel : nat)
    (hist : history) (moncy : date) (chores : list string)
    (fourweekno weekno : Z) (final : list string) :
  week_plan names prefs fuel hist moncy chores fourweekno weekno = Ok final →
  ∃ base full,
    choose_baseline hist moncy names chores fourweekno weekno
      = Ok (base, full) ∧
    final ≡ₚ base ∧ (full = true → base ≡ₚ chores).
Proof.
  intros H.
  destruct (week_plan_permutation_aux _ _ _ _ _ _ _ _ _ H)
    as (base & full & Hbase & Hperm & Hfull).
  by exists base, full.
Qed.

(** The plan of week 4, the start of cycle 1, for the three-person house. *)
Lemma week_plan_permutation_abc :
  week_plan abc_names abc_prefs 3 [] (Date 2020 3 30) abc_chores 1 4
    = Ok ["IB"; "IC"; "IA"]%string ∧
  ∃ base full,
    choose_baseline [] (Date 2020 3 30) abc_names abc_chores 1 4
      = Ok (base, full) ∧
    ["IB"; "IC"; "IA"]%string ≡ₚ base ∧ (full = true → base ≡ₚ abc_chores).
Proof.
  assert (week_plan abc_names abc_prefs 3 [] (Date 2020 3 30) abc_chores 1 4
          = Ok ["IB"; "IC"; "IA"]%string) as Hrun by (vm_compute; reflexivity).
  split; [exact Hrun|].
  exact (week_plan_permutation abc_names abc_prefs 3 [] (Date 2020 3 30)
           abc_chores 1 4 _ Hrun).
Defined.

(** ** The history: what is written is what is found *)

Lemma find_cycle_start_snoc (hist : history) (record : date * dict) (d : date) :
  find_cycle_start (hist ++ [record]) d
  = if decide (record.1 = d) then Some record.2 else find_cycle_start hist d.
Proof.
  unfold find_cycle_start. rewrite reverse_snoc, filter_cons.
  by destruct (decide (record.1 = d)).
Qed.

Lemma find_cycle_start_add (hist : history) (mon : date)
    (names chores : list string) (d : date) :
  find_cycle_start (add_to_history hist mon names chores) d
  = if decide (d = mon) then Some (dict_of (zip names chores))
    else find_cycle_start hist d.
Proof.
  destruct (add_to_history_cases hist mon names chores) as [Hsame Hother].
  destruct (last hist) as [h|] eqn:Hlast.
  - destruct (decide (h.1 = mon)) as [Hh|Hh].
    + rewrite (Hsame h eq_refl Hh), find_cycle_start_snoc. simpl.
      destruct (decide (mon = d)) as [->|Hne].
      * by rewrite decide_True.
      * rewrite decide_False by done.
        rewrite (last_snoc_inv _ _ Hlast) at 2.
        rewrite find_cycle_start_snoc. rewrite decide_False; [done|congruence].
    + rewrite Hother by (intros h' [= <-]; done).
      rewrite find_cycle_start_snoc. simpl.
      destruct (decide (mon = d)) as [->|Hne].
      * by rewrite decide_True.
      * by rewrite decide_False.
  - rewrite Hother by done. rewrite find_cycle_start_snoc. simpl.
    destruct (decide (mon = d)) as [->|Hne].
    + by rewrite decide_True.
    + by rewrite decide_False.
Qed.

(** X14. After [add_to_history], the record that [get_from_current_cycle]
    finds for the Monday just written is the new one, also when older
    records of that date are left in the list; for every other date it
    finds what it found before. *)
Theorem add_to_history_then_find
    (hist : history) (mon : date) (names chores : list string) (d : date) :
  find_cycle_start (add_to_history hist mon names chores) mon
    = Some (dict_of (zip names chores)) ∧
  (d ≠ mon →
   find_cycle_start (add_to_history hist mon names chores) d
     = find_cycle_start hist d ∧
   (get_from_current_cycle (add_to_history hist mon names chores) d
      = get_from_current_cycle hist d)).
Proof.
  split.
  - by rewrite find_cycle_start_add, decide_True.
  - intros Hne.
    assert (find_cycle_start (add_to_history hist mon names chores) d
            = find_cycle_start hist d) as E
      by (by rewrite find_cycle_start_add, decide_False).
    split; [done|]. unfold get_from_current_cycle. by rewrite E.
Qed.

Lemma dict_set_fresh (k v : string) (d : dict) :
  k ∉ d.*1 → dict_set k v d = d ++ [(k, v)].
Proof.
  induction d as [|[k' v'] d IH]; intros Hk; [done|]. simpl.
  rewrite decide_False.
  - rewrite IH; [done|]. intros Hin. apply Hk. by right.
  - intros ->. apply Hk. by left.
Qed.

Lemma dict_of_fold (pairs : list (string * string)) : ∀ acc : dict,
  NoDup (acc ++ pairs).*1 →
  fold_left (λ d kv, dict_set kv.1 kv.2 d) pairs acc = acc ++ pairs.
Proof.
  induction pairs as [|[k v] pairs IH]; intros acc Hnd; simpl.
  - by rewrite app_nil_r.
  - rewrite dict_set_fresh.
    + rewrite IH; rewrite <- app_assoc; done.
    + rewrite fmap_app in Hnd. apply NoDup_app in Hnd as (_ & Hdisj & _).
      intros Hin. apply (Hdisj k Hin). by left.
Qed.

(** With distinct keys, [dict(pairs)] holds the pairs as they come. *)
Lemma dict_of_NoDup (pairs : list (string * string)) :
  NoDup pairs.*1 → dict_of pairs = pairs.
Proof. intros Hnd. unfold dict_of. by rewrite dict_of_fold. Qed.

Lemma filter_all {A} (P : A → Prop) `{∀ x, Decision (P x)} (l : list A) :
  (∀ x, x ∈ l → P x) → filter P l = l.
Proof.
  induction l as [|a l IH]; intros Hall; [done|].
  rewrite filter_cons, decide_True by (apply Hall; by left).
  f_equal. apply IH. intros x Hx. apply Hall. by right.
Qed.

(** The chores of a list with its wildcards numbered from [n]: its other
    chores, and the wildcards [n+1 .. n+k] for its [k] wildcards. *)
Lemma tag_wild_elem (l : list string) : ∀ n x,
  x ∈ tag_wild n l ↔
  (x ≠ "Wild"%string ∧ x ∈ l) ∨
  ∃ j, (n < j ≤ n + length (filter (λ c, c = "Wild"%string) l))%nat ∧
       x = ("Wild" +:+ pretty j)%string.
Proof.
  induction l as [|c l IH]; intros n x; simpl.
  - split; [by intros ?%elem_of_nil|].
    intros [[_ H]|(j & Hj & _)]; [by apply elem_of_nil in H|lia].
  - rewrite filter_cons. destruct (decide (c = "Wild"%string)) as [->|Hne].
    + rewrite elem_of_cons, IH. simpl. split.
      * intros [->|[[Hx Hin]|(j & Hj & ->)]].
        -- right. exists (S n). split; [lia|done].
        -- left. split; [done|]. by right.
        -- right. exists j. split; [lia|done].
      * intros [[Hx [->|Hin]%elem_of_cons]|(j & Hj & ->)]; [done| |].
        -- right. left. done.
        -- destruct (decide (j = S n)) as [->|Hj']; [by left|].
           right. right. exists j. split; [lia|done].
    + rewrite elem_of_cons, IH. split.
      * intros [->|[[Hx Hin]|(j & Hj & ->)]].
        -- left. split; [done|]. by left.
        -- left. split; [done|]. by right.
        -- right. by exists j.
      * intros [[Hx [->|Hin]%elem_of_cons]|(j & Hj & ->)].
        -- by left.
        -- right. left. done.
        -- right. right. by exists j.
Qed.

Lemma tag_wild_Permutation (l k : list string) (x : string) :
  l ≡ₚ k → x ∈ tag_wild 0 l → x ∈ tag_wild 0 k.
Proof.
  intros Hperm. rewrite !tag_wild_elem.
  assert (length (filter (λ c, c = "Wild"%string) l)
          = length (filter (λ c, c = "Wild"%string) k)) as ->
    by (by rewrite Hperm).
  by rewrite Hperm.
Qed.

(** X15. What [add_to_history] records for a Monday is what
    [get_from_current_cycle] gives back for it: with the same distinct
    people and the same chores, in any order and wildcards included, the
    baseline is the recorded assignment (the other chores must not have
    "Wild" in their name). *)
Theorem baseline_round_trip
    (hist : history) (mon : date) (names final chores : list string) :
  NoDup names → names ≠ [] → length final = length names →
  chores ≡ₚ final →
  (∀ c, c ∈ final → c = "Wild"%string ∨ contains "Wild" c = false) →
  get_from_current_cycle (add_to_history hist mon names final) mon names chores
    = Ok final.
Proof.
  intros Hnames Hne Hlen Hperm Hplain.
  unfold get_from_current_cycle.
  rewrite find_cycle_start_add, decide_True by done.
  assert ((zip names final).*1 = names) as Hfst by (apply fst_zip; lia).
  assert ((zip names final).*2 = final) as Hsnd by (apply snd_zip; lia).
  rewrite dict_of_NoDup by (by rewrite Hfst).
  assert (zip names final ≠ []) as Hzip.
  { intros E. rewrite E in Hfst. by subst names. }
  assert (unzip_pairs (zip names final) = Ok (names, final)) as ->.
  { unfold unzip_pairs. rewrite Hfst, Hsnd. by destruct (zip names final). }
  rewrite ret_bind. cbv beta iota.
  rewrite (filter_all (λ nc : string * string, nc.1 ∈ names) (zip names final)).
  2:{ intros [n c] Hin. simpl. rewrite <- Hfst.
      apply list_elem_of_fmap. by exists (n, c). }
  assert (unzip_pairs (zip names final) = Ok (names, final)) as ->.
  { unfold unzip_pairs. rewrite Hfst, Hsnd. by destruct (zip names final). }
  rewrite ret_bind. cbv beta iota zeta.
  assert (length names = length (tag_wild 0 final)) as Hcc
    by (by rewrite tag_wild_length).
  assert (∀ i name, names !! i = Some name →
            ∃ c, tag_wild 0 final !! i = Some c ∧
                 kept names (tag_wild 0 final) (tag_wild 0 chores) name = Some c)
    as Hkept.
  { intros i name Hi.
    destruct (lookup_lt_is_Some_2 (tag_wild 0 final) i) as [c Hc].
    { rewrite <- Hcc. by eapply lookup_lt_Some. }
    exists c. split; [done|]. apply kept_Some. exists i.
    split; [by apply index_of_lookup|]. split; [done|].
    apply (tag_wild_Permutation final); [done|].
    by eapply list_elem_of_lookup_2. }
  destruct (assign_baseline_spec names (tag_wild 0 final) (tag_wild 0 chores)
              Hcc names
              (filter (λ chore, chore ∉ tag_wild 0 final) (tag_wild 0 chores)) [])
    as (new & Hnew & _ & Hl & Hpos).
  { destruct (filter _ names) as [|n l] eqn:E; [simpl; lia|].
    assert (n ∈ filter (λ n, kept names (tag_wild 0 final) (tag_wild 0 chores) n
                            = None) names) as [Hnone Hin]%list_elem_of_filter
      by (rewrite E; by left).
    apply list_elem_of_lookup_1 in Hin as (i & Hi).
    destruct (Hkept i n Hi) as (c & _ & Hc). congruence. }
  rewrite Hnew, ret_bind. simpl. f_equal.
  assert (new = tag_wild 0 final) as ->; [|by apply strip_tag_wild].
  apply list_eq. intros i.
  destruct (names !! i) as [name|] eqn:Hi.
  - destruct (Hkept i name Hi) as (c & Hc & Hk).
    rewrite Hc. by apply (Hpos i name c).
  - apply lookup_ge_None in Hi.
    rewrite !(proj2 (lookup_ge_None _ _)); [done|lia..].
Qed.

(** Week two of a history of one week: the new record is found, the old one
    is found as before. *)
Lemma add_to_history_then_find_example :
  let hist := [(Date 2020 3 30, [("A", "X"); ("B", "Y")]%string)] in
  let hist' := add_to_history hist (Date 2020 4 6) ["A"; "B"]%string
                 ["Y"; "X"]%string in
  find_cycle_start hist' (Date 2020 4 6)
    = Some (dict_of (zip ["A"; "B"]%string ["Y"; "X"]%string)) ∧
  Date 2020 3 30 ≠ Date 2020 4 6 ∧
  find_cycle_start hist' (Date 2020 3 30)
    = find_cycle_start hist (Date 2020 3 30) ∧
  get_from_current_cycle hist' (Date 2020 3 30)
    = get_from_current_cycle hist (Date 2020 3 30).
Proof.
  intros hist hist'.
  destruct (add_to_history_then_find hist (Date 2020 4 6) ["A"; "B"]%string
              ["Y"; "X"]%string (Date 2020 3 30)) as [Hnew Hold].
  assert (Date 2020 3 30 ≠ Date 2020 4 6) as Hne by discriminate.
  destruct (Hold Hne) as [Hfind Hget].
  split; [exact Hnew|]. split; [exact Hne|]. split; [exact Hfind|exact Hget].
Defined.

(** A house of three with two wildcards, asked again with the chores in
    another order. *)
Lemma baseline_round_trip_example :
  NoDup abc_names ∧ abc_names ≠ [] ∧
  ["Wild"; "Dishes"; "Wild"]%string ≡ₚ ["Dishes"; "Wild"; "Wild"]%string ∧
  get_from_current_cycle
    (add_to_history [] (Date 2020 3 30) abc_names
       ["Dishes"; "Wild"; "Wild"]%string)
    (Date 2020 3 30) abc_names ["Wild"; "Dishes"; "Wild"]%string
    = Ok ["Dishes"; "Wild"; "Wild"]%string.
Proof.
  assert (NoDup abc_names) as Hnd by compute_done.
  assert (abc_names ≠ []) as Hne by discriminate.
  assert (["Wild"; "Dishes"; "Wild"]%string
          ≡ₚ ["Dishes"; "Wild"; "Wild"]%string) as Hperm
    by apply Permutation_swap.
  split; [exact Hnd|]. split; [exact Hne|]. split; [exact Hperm|].
  apply (baseline_round_trip [] (Date 2020 3 30) abc_names
           ["Dishes"; "Wild"; "Wild"]%string ["Wild"; "Dishes"; "Wild"]%string
           Hnd Hne eq_refl Hperm).
  intros c Hc.
  repeat (apply elem_of_cons in Hc as [->|Hc]; [by (left + right)|]).
  by apply elem_of_nil in Hc.
Defined.

(** ** get_current_situation: who is in town, which chores are done *)

Lemma forallb_mem (l all : list string) :
  forallb (λ x, mem x all) l = true ↔ ∀ x, x ∈ l → x ∈ all.
Proof.
  induction l as [|a l IH]; simpl.
  - split; [by intros _ x ?%elem_of_nil|done].
  - rewrite andb_true_iff, IH, mem_true. split.
    + intros [Ha Hl] x [->|Hx]%elem_of_cons; [done|by apply Hl].
    + intros Hall. split; [apply Hall; by left|].
      intros x Hx. apply Hall. by right.
Qed.

Lemma forallb_mem_false (l all : list string) :
  forallb (λ x, mem x all) l = false → ∃ x, x ∈ l ∧ x ∉ all.
Proof.
  induction l as [|a l IH]; simpl; [done|].
  destruct (mem a all) eqn:Ha; simpl.
  - intros (x & Hx & Hno)%IH. exists x. split; [by right|done].
  - intros _. exists a. split; [by left|]. by apply mem_false.
Qed.

(** The first prompt takes the first answer that names housemates only. *)
Lemma ask_out_of_town_Ok all_names answers oot rest :
  ask_out_of_town all_names answers = Ok (oot, rest) →
  ∃ k, answers !! k = Some oot ∧ rest = drop (S k) answers ∧
       (∀ n, n ∈ oot → n ∈ all_names) ∧
       ∀ j a, (j < k)%nat → answers !! j = Some a →
              ∃ n, n ∈ a ∧ n ∉ all_names.
Proof.
  induction answers as [|a answers IH]; simpl; [done|].
  destruct (forallb (λ name, mem name all_names) a) eqn:Ha.
  - intros [= <- <-]. exists 0%nat. split; [done|]. split; [done|].
    split; [by apply forallb_mem|]. intros j b Hj. lia.
  - intros (k & Hk & Hrest & Hin & Hbefore)%IH. exists (S k).
    split; [done|]. split; [done|]. split; [done|].
    intros [|j] b Hj Hb; simpl in Hb.
    + injection Hb as <-. by apply forallb_mem_false.
    + apply (Hbefore j b); [lia|done].
Qed.

(** The second prompt takes the first answer that names chores of the list
    only and has the length asked for. *)
Lemma ask_skip_Ok all_chores nskip answers sk rest :
  ask_skip all_chores nskip answers = Ok (sk, rest) →
  sk ∈ answers ∧ (∀ c, c ∈ sk → c ∈ all_chores) ∧ length sk = nskip.
Proof.
  induction answers as [|a answers IH]; simpl; [done|].
  destruct (forallb (λ chore, mem chore all_chores) a
            && bool_decide (length a = nskip)) eqn:Ha.
  - intros [= <- <-]. apply andb_true_iff in Ha as [Hin Hlen].
    split; [by left|]. split; [by apply forallb_mem|].
    by apply bool_decide_eq_true in Hlen.
  - intros (Hin & Hall & Hlen)%IH. split; [by right|done].
Qed.

Lemma filter_split_length {A} (P : A → Prop) `{∀ x, Decision (P x)}
    (l : list A) :
  (length (filter P l) + length (filter (λ x, ¬ P x) l) = length l)%nat.
Proof.
  induction l as [|a l IH]; [done|]. rewrite !filter_cons.
  destruct (decide (P a)).
  - rewrite decide_False by tauto. simpl. lia.
  - rewrite decide_True by done. simpl. lia.
Qed.

(** Taking the chores of [sk] out of a list without repeats: at most
    [length sk] go, and exactly that many when [sk] has no repeats and
    names chores of the list only. *)
Lemma skip_length (all_chores sk : list string) :
  NoDup all_chores →
  (length all_chores - length sk
   ≤ length (filter (λ chore, chore ∉ sk) all_chores))%nat ∧
  (NoDup sk → (∀ c, c ∈ sk → c ∈ all_chores) →
   length (filter (λ chore, chore ∉ sk) all_chores)
   = (length all_chores - length sk)%nat).
Proof.
  intros Hnd.
  pose proof (filter_split_length (λ c, c ∈ sk) all_chores) as Hsplit.
  cbv beta in Hsplit.
  assert (filter (λ c, c ∈ sk) all_chores ⊆+ sk) as Hsub.
  { apply NoDup_submseteq; [by apply NoDup_filter|].
    by intros x [Hx _]%list_elem_of_filter. }
  apply submseteq_length in Hsub. split; [lia|].
  intros Hsk Hin.
  assert (sk ⊆+ filter (λ c, c ∈ sk) all_chores) as Hsub'.
  { apply NoDup_submseteq; [done|]. intros x Hx.
    apply list_elem_of_filter. split; [done|by apply Hin]. }
  apply submseteq_length in Hsub'. lia.
Qed.

(** X16. The people returned by [get_current_situation] are the people of
    the sheet, in its order, without those of the first answer that names
    housemates only; every answer before it had an unknown name. *)
Theorem situation_names
    (all_names all_chores : list string) (answers : list (list string))
    (names chores : list string) :
  get_current_situation all_names all_chores answers = Ok (names, chores) →
  ∃ k oot,
    answers !! k = Some oot ∧ (∀ n, n ∈ oot → n ∈ all_names) ∧
    (∀ j a, (j < k)%nat → answers !! j = Some a → ∃ n, n ∈ a ∧ n ∉ all_names) ∧
    names = filter (λ name, name ∉ oot) all_names ∧
    names `sublist_of` all_names.
Proof.
  unfold get_current_situation. intros ([oot rest] & Hask & H)%bind_Ok.
  apply ask_out_of_town_Ok in Hask as (k & Hk & _ & Hin & Hbefore).
  exists k, oot. split; [done|]. split; [done|]. split; [done|].
  cbv beta iota zeta in H.
  assert (names = filter (λ name, name ∉ oot) all_names) as ->.
  { destruct (decide _) in H; [done|].
    destruct (decide _) in H; [by injection H as <- <-|].
    apply bind_Ok in H as ([sk rest'] & _ & H). by injection H as <- <-. }
  split; [done|]. apply sublist_filter.
Qed.

(** X17. The chores returned by [get_current_situation], for a sheet
    without repeated chores: never fewer than the people returned; one per
    person when no answer typed repeats a name; only chores of the sheet and
    wildcards, the wildcards only when there are more people than chores;
    and no chore of the sheet is left out unless there are more chores than
    people. *)
Theorem situation_chores
    (all_names all_chores : list string) (answers : list (list string))
    (names chores : list string) :
  NoDup all_chores →
  get_current_situation all_names all_chores answers = Ok (names, chores) →
  (length names ≤ length chores)%nat ∧
  ((∀ a, a ∈ answers → NoDup a) → length chores = length names) ∧
  (∀ c, c ∈ chores →
     c ∈ all_chores ∨
     (c = "Wild"%string ∧ (length all_chores < length names)%nat)) ∧
  (∀ c, c ∈ all_chores → c ∈ chores ∨ (length names < length all_chores)%nat).
Proof.
  intros Hnd. unfold get_current_situation.
  intros ([oot rest] & Hask & H)%bind_Ok.
  apply ask_out_of_town_Ok in Hask as (k & Hk & -> & _).
  cbv beta iota zeta in H.
  set (names0 := filter (λ name, name ∉ oot) all_names) in *.
  destruct (decide (length names0 = length all_chores)) as [|Hne]; [done|].
  destruct (decide (length all_chores < length names0)%nat) as [Hlt|Hge].
  - injection H as <- <-. rewrite length_app, length_replicate.
    split; [lia|]. split; [intros _; lia|]. split.
    + intros c [Hc|Hc]%elem_of_app; [by left|].
      apply elem_of_replicate in Hc as [-> _]. by right.
    + intros c Hc. left. apply elem_of_app. by left.
  - apply bind_Ok in H as ([sk rest'] & Hsk & H). injection H as <- <-.
    apply ask_skip_Ok in Hsk as (Hin & Hall & Hlen).
    destruct (skip_length all_chores sk Hnd) as [Hle Heq].
    split; [lia|]. split.
    + intros Hanswers. rewrite Heq; [lia| |done].
      apply Hanswers. apply list_elem_of_lookup_1 in Hin as (j & Hj).
      rewrite lookup_drop in Hj. by eapply list_elem_of_lookup_2.
    + split.
      * intros c [_ Hc]%list_elem_of_filter. by left.
      * intros c Hc. right. lia.
Qed.

(** The count can go wrong: a chore typed twice is taken out once, and more
    chores than people come back. *)
Lemma get_current_situation_repeated_skip :
  get_current_situation ["A"]%string ["X"; "Y"; "Z"]%string
    [[]; ["X"; "X"]%string]
  = Ok (["A"]%string, ["Y"; "Z"]%string).
Proof. vm_compute. reflexivity. Qed.

Lemma situation_names_example :
  get_current_situation ["A"; "B"; "C"]%string ["X"]%string
    [["D"]%string; ["B"]%string]
    = Ok (["A"; "C"]%string, ["X"; "Wild"]%string) ∧
  ∃ k oot,
    [["D"]%string; ["B"]%string] !! k = Some oot ∧
    (∀ n, n ∈ oot → n ∈ ["A"; "B"; "C"]%string) ∧
    (∀ j a, (j < k)%nat → [["D"]%string; ["B"]%string] !! j = Some a →
            ∃ n, n ∈ a ∧ n ∉ ["A"; "B"; "C"]%string) ∧
    ["A"; "C"]%string = filter (λ name, name ∉ oot) ["A"; "B"; "C"]%string ∧
    ["A"; "C"]%string `sublist_of` ["A"; "B"; "C"]%string.
Proof.
  assert (get_current_situation ["A"; "B"; "C"]%string ["X"]%string
            [["D"]%string; ["B"]%string]
          = Ok (["A"; "C"]%string, ["X"; "Wild"]%string)) as Hrun
    by (vm_compute; reflexivity).
  split; [exact Hrun|].
  exact (situation_names _ _ _ _ _ Hrun).
Defined.

Lemma situation_chores_example :
  NoDup ["X"; "Y"; "Z"]%string ∧
  get_current_situation ["A"]%string ["X"; "Y"; "Z"]%string
    [[]; ["Y"]%string; ["X"; "Z"]%string]
    = Ok (["A"]%string, ["Y"]%string) ∧
  (length ["A"]%string ≤ length ["Y"]%string)%nat ∧
  ((∀ a, a ∈ [[]; ["Y"]%string; ["X"; "Z"]%string] → NoDup a) →
   length ["Y"]%string = length ["A"]%string) ∧
  (∀ c, c ∈ ["Y"]%string →
     c ∈ ["X"; "Y"; "Z"]%string ∨
     (c = "Wild"%string ∧
      (length ["X"; "Y"; "Z"]%string < length ["A"]%string)%nat)) ∧
  (∀ c, c ∈ ["X"; "Y"; "Z"]%string →
     c ∈ ["Y"]%string ∨
     (length ["A"]%string < length ["X"; "Y"; "Z"]%string)%nat).
Proof.
  assert (NoDup ["X"; "Y"; "Z"]%string) as Hnd by compute_done.
  assert (get_current_situation ["A"]%string ["X"; "Y"; "Z"]%string
            [[]; ["Y"]%string; ["X"; "Z"]%string]
          = Ok (["A"]%string, ["Y"]%string)) as Hrun
    by (vm_compute; reflexivity).
  split; [exact Hnd|]. split; [exact Hrun|].
  exact (situation_chores _ _ _ _ _ Hnd Hrun).
Defined.

(** ** weekinfo: the week and the cycle of a day *)

(** X18. The Monday returned by [weekinfo] is the last one not after today,
    the cycle's Monday is the Monday of the week itself or of one of the
    three weeks before, [fourweekno] is [weekno] divided by four, and the
    week starts a cycle ([weekno % 4 == 0], the test of main) exactly when
    its Monday is the cycle's Monday. *)
Theorem weekinfo_week (today fourweekno weekno mon moncy : Z) :
  weekinfo today = (fourweekno, weekno, mon, moncy) →
  (mon ≤ today < mon + 7)%Z ∧ (mon mod 7 = 0)%Z ∧
  (moncy ≤ today < moncy + 28)%Z ∧
  mon = (moncy + 7 * (weekno mod 4))%Z ∧
  fourweekno = (weekno / 4)%Z ∧
  ((weekno mod 4 = 0)%Z ↔ mon = moncy).
Proof.
  unfold weekinfo. intros [= <- <- <- <-].
  repeat split; Z.div_mod_to_equations; lia.
Qed.

(** X19. The days of one cycle share its Monday and its number: a day has
    the same [moncy] as [today] exactly when it lies in the four weeks from
    that Monday on, and then the same [fourweekno]; a week later the week
    number is one more. *)
Theorem weekinfo_same_cycle
    (today today' fourweekno weekno mon moncy
     fourweekno' weekno' mon' moncy' : Z) :
  weekinfo today = (fourweekno, weekno, mon, moncy) →
  weekinfo today' = (fourweekno', weekno', mon', moncy') →
  (moncy' = moncy ↔ (moncy ≤ today' < moncy + 28)%Z) ∧
  (moncy' = moncy ↔ fourweekno' = fourweekno) ∧
  (today' = (today + 7)%Z → weekno' = (weekno + 1)%Z ∧ mon' = (mon + 7)%Z).
Proof.
  unfold weekinfo. intros [= <- <- <- <-] [= <- <- <- <-].
  repeat split; intros; Z.div_mod_to_equations; lia.
Qed.

Lemma weekinfo_week_example :
  weekinfo 823 = (29, 117, 819, 812)%Z ∧
  (819 ≤ 823 < 819 + 7)%Z ∧ (819 mod 7 = 0)%Z ∧
  (812 ≤ 823 < 812 + 28)%Z ∧
  819%Z = (812 + 7 * (117 mod 4))%Z ∧
  29%Z = (117 / 4)%Z ∧
  ((117 mod 4 = 0)%Z ↔ 819%Z = 812%Z).
Proof.
  assert (weekinfo 823 = (29, 117, 819, 812)%Z) as Hrun by reflexivity.
  split; [exact Hrun|].
  exact (weekinfo_week 823 29 117 819 812 Hrun).
Defined.

Lemma weekinfo_same_cycle_example :
  weekinfo 812 = (29, 116, 812, 812)%Z ∧
  weekinfo 819 = (29, 117, 819, 812)%Z ∧
  (812%Z = 812%Z ↔ (812 ≤ 819 < 812 + 28)%Z) ∧
  (812%Z = 812%Z ↔ 29%Z = 29%Z) ∧
  (819%Z = (812 + 7)%Z → 117%Z = (116 + 1)%Z ∧ 819%Z = (812 + 7)%Z).
Proof.
  assert (weekinfo 812 = (29, 116, 812, 812)%Z) as Hrun by reflexivity.
  assert (weekinfo 819 = (29, 117, 819, 812)%Z) as Hrun' by reflexivity.
  split; [exact Hrun|]. split; [exact Hrun'|].
  exact (weekinfo_same_cycle 812 819 29 116 812 812 29 117 819 812 Hrun Hrun').
Defined.

(** ** get_preferences: the table read from the sheet *)

Section PreferencesFacts.
Context (float : string → result (option Q)).

Lemma valid_misery_Ok (ndata : nat) (p : option Q) (q : Q) :
  valid_misery ndata p = Ok q →
  p = Some q ∧ 1 <= q ∧ q <= inject_Z (Z.of_nat ndata).
Proof.
  unfold valid_misery. destruct p as [p|]; [|done].
  destruct (Qle_bool 1 p) eqn:H1; [|done].
  destruct (Qle_bool p (inject_Z (Z.of_nat ndata))) eqn:H2; [|done].
  intros [= ->]. by rewrite <- !Qle_bool_iff.
Qed.

(** One step of the inner loop. *)
Lemma fill_row_cons ndata i r data row0 row :
  fill_row float ndata i (r :: data) row0 = Ok row →
  ∃ cell p, r.2 !! i = Some cell ∧ float cell = Ok (Some p) ∧
            1 <= p ∧ p <= inject_Z (Z.of_nat ndata) ∧
            fill_row float ndata i data (<[r.1:=p]> row0) = Ok row.
Proof.
  simpl. intros (cell & Hcell & H)%bind_Ok.
  apply bind_Ok in H as (p & Hp & H).
  apply bind_Ok in H as (q & Hq & H).
  apply valid_misery_Ok in Hq as (-> & H1 & H2).
  apply getitem_Ok in Hcell. by exists cell, q.
Qed.

Lemma fill_row_other ndata i data : ∀ row0 row c,
  fill_row float ndata i data row0 = Ok row →
  c ∉ data.*1 → row !! c = row0 !! c.
Proof.
  induction data as [|r data IH]; intros row0 row c H Hc.
  - by injection H as <-.
  - apply fill_row_cons in H as (cell & p & _ & _ & _ & _ & H).
    rewrite (IH _ _ c H).
    + apply lookup_insert_ne. intros E. apply Hc. rewrite <- E. by left.
    + intros Hin. apply Hc. by right.
Qed.

(** A row written by the inner loop holds, for every chore of the data, the
    number of the last line of that chore, in the column of the person. *)
Lemma fill_row_spec ndata i data : ∀ row0 row c,
  fill_row float ndata i data row0 = Ok row →
  c ∈ data.*1 →
  ∃ r cell p, r ∈ data ∧ r.1 = c ∧ r.2 !! i = Some cell ∧
              float cell = Ok (Some p) ∧
              1 <= p ∧ p <= inject_Z (Z.of_nat ndata) ∧ row !! c = Some p.
Proof.
  induction data as [|r data IH]; intros row0 row c H Hc;
    [by apply elem_of_nil in Hc|].
  apply fill_row_cons in H as (cell & p & Hcell & Hp & H1 & H2 & H).
  destruct (decide (c ∈ data.*1)) as [Hin|Hout].
  - destruct (IH _ _ c H Hin) as (r' & cell' & p' & Hr' & Hrest).
    exists r', cell', p'. split; [by right|done].
  - rewrite fmap_cons in Hc. apply elem_of_cons in Hc as [->|Hc]; [|done].
    exists r, cell, p. split; [by left|]. split; [done|].
    split; [done|]. split; [done|]. split; [done|]. split; [done|].
    rewrite (fill_row_other _ _ _ _ _ _ H Hout). by apply lookup_insert_eq.
Qed.

(** With one line per chore, the row holds the number of each line. *)
Lemma fill_row_cell ndata i data row r :
  NoDup data.*1 →
  fill_row float ndata i data ∅ = Ok row → r ∈ data →
  ∃ cell p, r.2 !! i = Some cell ∧ float cell = Ok (Some p) ∧
            row !! r.1 = Some p.
Proof.
  intros Hnd H Hr.
  destruct (fill_row_spec _ _ _ _ _ r.1 H) as (r' & cell & p & Hr' & E & Hrest).
  { apply list_elem_of_fmap. by exists r. }
  assert (r' = r) as ->.
  { apply list_elem_of_lookup_1 in Hr as (j & Hj).
    apply list_elem_of_lookup_1 in Hr' as (j' & Hj').
    assert (j' = j) as ->; [|congruence].
    apply (NoDup_lookup _ _ _ r.1 Hnd); rewrite list_lookup_fmap.
    - by rewrite Hj', <- E.
    - by rewrite Hj. }
  destruct Hrest as (Hcell & Hp & _ & _ & Hrow). by exists cell, p.
Qed.

Lemma fill_prefs_other data : ∀ all_names i prefs0 prefs n,
  fill_prefs float data i all_names prefs0 = Ok prefs →
  n ∉ all_names → prefs !! n = prefs0 !! n.
Proof.
  induction all_names as [|m all_names IH]; intros i prefs0 prefs n H Hn;
    simpl in H.
  - by injection H as <-.
  - apply bind_Ok in H as (row & Hrow & H). rewrite (IH _ _ _ n H).
    + apply lookup_insert_ne. intros ->. apply Hn. by left.
    + intros Hin. apply Hn. by right.
Qed.

(** The table written by the outer loop holds, for every person of the
    header, the row of the last column of that person. *)
Lemma fill_prefs_spec data : ∀ all_names i prefs0 prefs n,
  fill_prefs float data i all_names prefs0 = Ok prefs →
  n ∈ all_names →
  ∃ j row, all_names !! j = Some n ∧
           fill_row float (length data) (i + j) data ∅ = Ok row ∧
           prefs !! n = Some row.
Proof.
  induction all_names as [|m all_names IH]; intros i prefs0 prefs n H Hn;
    [by apply elem_of_nil in Hn|].
  simpl in H. apply bind_Ok in H as (row & Hrow & H).
  destruct (decide (n ∈ all_names)) as [Hin|Hout].
  - destruct (IH _ _ _ n H Hin) as (j & row' & Hj & Hrow' & Hp).
    exists (S j), row'. split; [done|]. split; [|done].
    by replace (i + S j)%nat with (S i + j)%nat by lia.
  - apply elem_of_cons in Hn as [->|Hn]; [|done].
    exists 0%nat, row. split; [done|].
    replace (i + 0)%nat with i by lia. split; [done|].
    rewrite (fill_prefs_other _ _ _ _ _ _ H Hout). by apply lookup_insert_eq.
Qed.

Lemma get_preferences_Ok lines all_names all_chores prefs :
  get_preferences float lines = Ok (all_names, all_chores, prefs) →
  ∃ header rest,
    lines = header :: rest ∧ all_names = header.2 ∧
    all_chores = filter (λ c, c ≠ "Wild"%string)
                   (filter (λ r : sheet_row, r.1 ≠ ""%string) rest).*1 ∧
    fill_prefs float (filter (λ r : sheet_row, r.1 ≠ ""%string) rest) 0
      all_names ∅ = Ok prefs.
Proof.
  unfold get_preferences. destruct lines as [|header rest]; [done|].
  intros (prefs' & H & [= <- <- <-])%bind_Ok. by exists header, rest.
Qed.
End PreferencesFacts.

(** X20. The table of [get_preferences] is the sheet: with distinct people
    in the header and one line per chore, [prefs[PERSON][CHORE]] is the
    number found in the line of the chore (lines with an empty first cell
    are left out) and the column of the person. *)
Theorem get_preferences_cell
    (float : string → result (option Q)) (header : sheet_row)
    (rest : list sheet_row) (all_names all_chores : list string)
    (prefs : gmap string (gmap string Q))
    (j : nat) (n : string) (r : sheet_row) :
  get_preferences float (header :: rest) = Ok (all_names, all_chores, prefs) →
  NoDup all_names →
  NoDup (filter (λ r : sheet_row, r.1 ≠ ""%string) rest).*1 →
  all_names !! j = Some n → r ∈ rest → r.1 ≠ ""%string →
  ∃ cell p, r.2 !! j = Some cell ∧ float cell = Ok (Some p) ∧
            cost prefs n r.1 = Ok p.
Proof.
  intros (header' & rest' & [= <- <-] & -> & _ & H)%get_preferences_Ok
    Hnames Hdata Hj Hr Hne.
  destruct (fill_prefs_spec float _ _ _ _ _ n H) as (j' & row & Hj' & Hrow & Hp).
  { by eapply list_elem_of_lookup_2. }
  assert (j' = j) as -> by apply (NoDup_lookup _ _ _ n Hnames Hj' Hj).
  simpl in Hrow.
  destruct (fill_row_cell float _ _ _ _ r Hdata Hrow) as (cell & p & Hc & Hf & Hv).
  { by apply list_elem_of_filter. }
  exists cell, p. split; [done|]. split; [done|].
  unfold cost. by rewrite Hp, Hv.
Qed.

(** X21. What [get_preferences] returns fits together: the chores are the
    first cells of the data lines without "Wild", and the table has a
    misery for every person of the header and every first cell of a data
    line, "Wild" included: no lookup of [prefs[n][c]] for them fails. *)
Theorem get_preferences_covers
    (float : string → result (option Q)) (lines : list sheet_row)
    (all_names all_chores : list string)
    (prefs : gmap string (gmap string Q)) :
  get_preferences float lines = Ok (all_names, all_chores, prefs) →
  (∀ c, c ∈ all_chores ↔
        c ≠ "Wild"%string ∧ c ≠ ""%string ∧ ∃ r, r ∈ tail lines ∧ r.1 = c) ∧
  covers prefs all_names all_chores ∧
  ((∃ r, r ∈ tail lines ∧ r.1 = "Wild"%string) →
   covers prefs all_names ["Wild"%string]).
Proof.
  intros (header & rest & -> & -> & -> & H)%get_preferences_Ok. simpl.
  set (data := filter (λ r : sheet_row, r.1 ≠ ""%string) rest) in *.
  assert (∀ n c, n ∈ header.2 → c ∈ data.*1 → is_Ok (cost prefs n c)) as Hcov.
  { intros n c Hn Hc.
    destruct (fill_prefs_spec float _ _ _ _ _ n H Hn) as (j & row & _ & Hrow & Hp).
    destruct (fill_row_spec float _ _ _ _ _ c Hrow Hc)
      as (r & cell & p & _ & _ & _ & _ & _ & _ & Hv).
    exists p. unfold cost. by rewrite Hp, Hv. }
  split; [|split].
  - intros c. rewrite list_elem_of_filter, list_elem_of_fmap. split.
    + intros (Hw & r & -> & [Hne Hr]%list_elem_of_filter).
      split; [done|]. split; [done|]. by exists r.
    + intros (Hw & Hne & r & Hr & <-). split; [done|].
      exists r. split; [done|]. by apply list_elem_of_filter.
  - intros n c Hn [_ Hc]%list_elem_of_filter. by apply Hcov.
  - intros (r & Hr & Hw) n c Hn ->%list_elem_of_singleton.
    apply Hcov; [done|]. apply list_elem_of_fmap. exists r.
    split; [done|]. apply list_elem_of_filter. split; [|done].
    by rewrite Hw.
Qed.

(** X22. Only checked numbers get into the table: every misery stored by
    [get_preferences] belongs to a person of the header and a data line,
    and lies between 1 and the number of data lines. *)
Theorem get_preferences_bounds
    (float : string → result (option Q)) (lines : list sheet_row)
    (all_names all_chores : list string)
    (prefs : gmap string (gmap string Q)) (n c : string) (p : Q) :
  get_preferences float lines = Ok (all_names, all_chores, prefs) →
  cost prefs n c = Ok p →
  n ∈ all_names ∧ (∃ r, r ∈ tail lines ∧ r.1 = c ∧ c ≠ ""%string) ∧
  1 <= p ∧
  p <= inject_Z (Z.of_nat
         (length (filter (λ r : sheet_row, r.1 ≠ ""%string) (tail lines)))).
Proof.
  intros (header & rest & -> & -> & -> & H)%get_preferences_Ok Hcost. simpl.
  set (data := filter (λ r : sheet_row, r.1 ≠ ""%string) rest) in *.
  unfold cost in Hcost.
  destruct (prefs !! n) as [row|] eqn:Hp; [|done].
  destruct (row !! c) as [p'|] eqn:Hv; [|done]. injection Hcost as ->.
  assert (n ∈ header.2) as Hn.
  { destruct (decide (n ∈ header.2)) as [|Hout]; [done|].
    rewrite (fill_prefs_other float _ _ _ _ _ n H Hout) in Hp. done. }
  split; [done|].
  destruct (fill_prefs_spec float _ _ _ _ _ n H Hn) as (j & row' & _ & Hrow & Hp').
  assert (row' = row) as -> by congruence.
  assert (c ∈ data.*1) as Hc.
  { destruct (decide (c ∈ data.*1)) as [|Hout]; [done|].
    rewrite (fill_row_other float _ _ _ _ _ c Hrow Hout) in Hv. done. }
  destruct (fill_row_spec float _ _ _ _ _ c Hrow Hc)
    as (r & cell & q & Hr & Hrc & _ & _ & H1 & H2 & Hq).
  assert (q = p) as -> by congruence.
  apply list_elem_of_filter in Hr as [Hne Hr].
  split; [|done]. exists r. split; [done|]. split; [done|]. by rewrite <- Hrc.
Qed.

Lemma sample_sheet_read :
  get_preferences float_digit sample_sheet
  = Ok (["A"; "B"]%string, ["X"]%string, sample_prefs).
Proof. vm_compute. reflexivity. Qed.

Lemma get_preferences_cell_example :
  get_preferences float_digit sample_sheet
    = Ok (["A"; "B"]%string, ["X"]%string, sample_prefs) ∧
  ∃ cell p, ["2"; "1"]%string !! 1%nat = Some cell ∧
            float_digit cell = Ok (Some p) ∧
            cost sample_prefs "B" "Wild" = Ok p.
Proof.
  split; [exact sample_sheet_read|].
  apply (get_preferences_cell float_digit ("", ["A"; "B"])%string
           (tail sample_sheet) ["A"; "B"]%string ["X"]%string sample_prefs
           1 "B" ("Wild", ["2"; "1"])%string sample_sheet_read).
  - compute_done.
  - compute_done.
  - reflexivity.
  - right. right. by left.
  - discriminate.
Defined.

Lemma get_preferences_covers_example :
  get_preferences float_digit sample_sheet
    = Ok (["A"; "B"]%string, ["X"]%string, sample_prefs) ∧
  (∀ c, c ∈ ["X"]%string ↔
        c ≠ "Wild"%string ∧ c ≠ ""%string ∧
        ∃ r, r ∈ tail sample_sheet ∧ r.1 = c) ∧
  covers sample_prefs ["A"; "B"]%string ["X"]%string ∧
  ((∃ r, r ∈ tail sample_sheet ∧ r.1 = "Wild"%string) →
   covers sample_prefs ["A"; "B"]%string ["Wild"%string]).
Proof.
  split; [exact sample_sheet_read|].
  exact (get_preferences_covers float_digit sample_sheet _ _ _
           sample_sheet_read).
Defined.

Lemma get_preferences_bounds_example :
  get_preferences float_digit sample_sheet
    = Ok (["A"; "B"]%string, ["X"]%string, sample_prefs) ∧
  cost sample_prefs "A" "Wild" = Ok 2 ∧
  "A"%string ∈ ["A"; "B"]%string ∧
  (∃ r, r ∈ tail sample_sheet ∧ r.1 = "Wild"%string ∧
        "Wild"%string ≠ ""%string) ∧
  1 <= 2 ∧
  2 <= inject_Z (Z.of_nat
         (length (filter (λ r : sheet_row, r.1 ≠ ""%string)
                    (tail sample_sheet)))).
Proof.
  assert (cost sample_prefs "A" "Wild" = Ok 2) as Hcost
    by (vm_compute; reflexivity).
  split; [exact sample_sheet_read|]. split; [exact Hcost|].
  exact (get_preferences_bounds float_digit sample_sheet _ _ _ "A" "Wild" 2
           sample_sheet_read Hcost).
Defined.

(** ** The baseline has one chore per person, taken from the week's list *)

Lemma assign_baseline_shape (cc_names cc_chores chores : list string) :
  ∀ names extras acc new,
  assign_baseline cc_names cc_chores chores names extras acc = Ok new →
  length new = (length acc + length names)%nat ∧
  ∀ c, c ∈ new → c ∈ acc ∨ c ∈ chores ∨ c ∈ extras.
Proof.
  induction names as [|name names IH]; intros extras acc new H; simpl in H.
  - injection H as <-. split; [simpl; lia|]. intros c Hc. by left.
  - apply bind_Ok in H as (keep & Hkeep & H).
    assert (∀ c, keep = Some c → c ∈ chores) as Hk.
    { intros c ->. destruct (mem name cc_names); [|done].
      apply bind_Ok in Hkeep as (i & _ & Hkeep).
      apply bind_Ok in Hkeep as (cc & _ & Hkeep).
      destruct (mem cc chores) eqn:Hm; [|done].
      injection Hkeep as ->. by apply mem_true. }
    destruct keep as [c0|].
    + apply IH in H as [Hlen Hin]. rewrite length_app in Hlen. simpl in *.
      split; [lia|]. intros c [[Hc| ->%list_elem_of_singleton]%elem_of_app|Hc]%Hin.
      * by left.
      * right. left. by apply Hk.
      * by right.
    + apply bind_Ok in H as (e & He & H). apply getitem_Ok in He.
      apply IH in H as [Hlen Hin]. rewrite length_app in Hlen. simpl in *.
      split; [lia|].
      destruct extras as [|e' extras]; [done|]. injection He as ->.
      intros c [[Hc| ->%list_elem_of_singleton]%elem_of_app|[Hc|Hc]]%Hin.
      * by left.
      * right. right. by left.
      * right. by left.
      * right. right. by right.
Qed.

(** Before the numbers are taken off the wildcards, the baseline has one
    chore per name, each from the numbered chores of the week. *)
Lemma get_from_current_cycle_tagged
    (hist : history) (moncy : date) (names chores new : list string) :
  get_from_current_cycle hist moncy names chores = Ok new →
  ∃ new_t, new = strip_wild new_t ∧ length new_t = length names ∧
           ∀ c, c ∈ new_t → c ∈ tag_wild 0 chores.
Proof.
  unfold get_from_current_cycle.
  destruct (find_cycle_start hist moncy) as [items|]; [|done].
  intros ([cc_names cc_chores] & _ & H)%bind_Ok.
  apply bind_Ok in H as ([cc_names' cc_chores'] & _ & H).
  cbv zeta in H. apply bind_Ok in H as (new_t & Hnew & [= <-]).
  apply assign_baseline_shape in Hnew as [Hlen Hin].
  exists new_t. split; [done|]. split; [simpl in Hlen; lia|].
  intros c Hc. destruct (Hin c Hc) as [Hnil|[Hc'|Hc']].
  - by apply elem_of_nil in Hnil.
  - done.
  - by apply list_elem_of_filter in Hc' as [_ Hc'].
Qed.

(** X23. Whenever [get_from_current_cycle] returns, it returns one chore
    per name; and every chore returned is a chore of the week (when no
    chore of the week other than "Wild" has "Wild" in its name). *)
Theorem get_from_current_cycle_shape
    (hist : history) (moncy : date) (names chores new : list string) :
  get_from_current_cycle hist moncy names chores = Ok new →
  length new = length names ∧
  ((∀ c, c ∈ chores → c = "Wild"%string ∨ contains "Wild" c = false) →
   ∀ c, c ∈ new → c ∈ chores).
Proof.
  intros (new_t & -> & Hlen & Hin)%get_from_current_cycle_tagged. split.
  - unfold strip_wild. by rewrite length_fmap.
  - intros Hplain c Hc. rewrite <- (strip_tag_wild 0 chores Hplain).
    unfold strip_wild in *. apply list_elem_of_fmap in Hc as (ct & -> & Hct).
    apply list_elem_of_fmap. exists ct. split; [done|]. by apply Hin.
Qed.

Lemma get_from_current_cycle_shape_example :
  get_from_current_cycle [(Date 2020 3 30, [("A", "X"); ("C", "Z")]%string)]
    (Date 2020 3 30) ["A"; "B"]%string ["X"; "Wild"]%string
    = Ok ["X"; "Wild"]%string ∧
  length ["X"; "Wild"]%string = length ["A"; "B"]%string ∧
  ((∀ c, c ∈ ["X"; "Wild"]%string →
         c = "Wild"%string ∨ contains "Wild" c = false) →
   ∀ c, c ∈ ["X"; "Wild"]%string → c ∈ ["X"; "Wild"]%string).
Proof.
  assert (get_from_current_cycle
            [(Date 2020 3 30, [("A", "X"); ("C", "Z")]%string)]
            (Date 2020 3 30) ["A"; "B"]%string ["X"; "Wild"]%string
          = Ok ["X"; "Wild"]%string) as Hrun by (vm_compute; reflexivity).
  split; [exact Hrun|].
  exact (get_from_current_cycle_shape _ _ _ _ _ Hrun).
Defined.

(** ** The plan of the week goes through *)





Lemma assign_baseline_finished (cc_names cc_chores chores : list string) :
  ∀ names extras acc,
  finished (assign_baseline cc_names cc_chores chores names extras acc).
Proof.
  induction names as [|name names IH]; intros extras acc; simpl; [done|].
  apply bind_finished.
  - destruct (mem name cc_names); [|done].
    apply bind_finished; [apply index_finished|]. intros i _.
    apply bind_finished; [apply getitem_finished|]. done.
  - intros [c|] _; [apply IH|].
    apply bind_finished; [apply getitem_finished|]. intros e _. apply IH.
Qed.

Lemma get_from_current_cycle_finished
    (hist : history) (moncy : date) (names chores : list string) :
  finished (get_from_current_cycle hist moncy names chores).
Proof.
  unfold get_from_current_cycle.
  destruct (find_cycle_start hist moncy) as [items|]; [|done].
  apply bind_finished; [by destruct items|]. intros [a b] _.
  apply bind_finished; [by destruct (filter _ _)|]. intros [a' b'] _.
  cbv zeta. apply bind_finished; [apply assign_baseline_finished|]. done.
Qed.




(** ** improve: who asks first *)

Lemma insert_by_key_Permutation (x : string * Q) (l : list (string * Q)) :
  insert_by_key x l ≡ₚ x :: l.
Proof.
  induction l as [|y l IH]; simpl; [done|].
  destruct (Qlt_bool y.2 x.2); [|done]. rewrite IH. apply Permutation_swap.
Qed.

Lemma sort_by_key_Permutation (l : list (string * Q)) : sort_by_key l ≡ₚ l.
Proof.
  induction l as [|x l IH]; simpl; [done|].
  by rewrite insert_by_key_Permutation, IH.
Qed.

Lemma insert_by_key_ascending (x : string * Q) (l : list (string * Q)) :
  ascending l → ascending (insert_by_key x l).
Proof.
  induction l as [|y l IH]; simpl.
  - intros _. split; [apply Forall_nil_2|done].
  - intros [Hy Hl]. destruct (Qlt_bool y.2 x.2) eqn:E; simpl.
    + split; [|by apply IH]. apply Forall_forall. intros z Hz.
      apply insert_by_key_elem in Hz as [->|Hz].
      * apply Qlt_bool_iff in E. lra.
      * by eapply Forall_forall in Hy.
    + assert (x.2 <= y.2) as Hxy.
      { unfold Qlt_bool in E. apply negb_false_iff in E.
        by apply Qle_bool_iff. }
      split; [|done]. apply Forall_cons. split; [done|].
      eapply Forall_impl; [exact Hy|]. intros z Hz. simpl in Hz. lra.
Qed.

Lemma sort_by_key_ascending (l : list (string * Q)) : ascending (sort_by_key l).
Proof.
  induction l as [|x l IH]; simpl; [done|]. by apply insert_by_key_ascending.
Qed.

Lemma ascending_lookup (l : list (string * Q)) : ∀ i j x y,
  ascending l → (i < j)%nat → l !! i = Some x → l !! j = Some y → x.2 <= y.2.
Proof.
  induction l as [|z l IH]; intros i j x y Hl Hij Hi Hj; [done|].
  destruct Hl as [Hz Hl]. destruct j as [|j]; [lia|]. simpl in Hj.
  destruct i as [|i]; simpl in Hi.
  - injection Hi as ->. eapply Forall_forall in Hz; [exact Hz|].
    by eapply list_elem_of_lookup_2.
  - apply (IH i j); [done|lia|done..].
Qed.

Lemma asking_keys_elem names prefs chores l ks n k :
  asking_keys names prefs chores l = Ok ks → (n, k) ∈ ks →
  asking_key names prefs chores n = Ok k.
Proof.
  revert ks. induction l as [|m l IH]; intros ks H Hin; simpl in H.
  - injection H as <-. by apply elem_of_nil in Hin.
  - apply bind_Ok in H as (km & Hkm & H).
    apply bind_Ok in H as (rest & Hrest & H). injection H as <-.
    apply elem_of_cons in Hin as [[= -> ->]|Hin]; [done|by eapply IH].
Qed.

(** X25. The most miserable ask first: the asking order of [improve] holds
    the askers (the restricted askers, or everybody), each as often as
    given, in the order of their misery for the chore they hold, from the
    highest to the lowest. *)
Theorem asking_order_sorted
    (names : list string) (prefs : gmap string (gmap string Q))
    (chores : list string) (restricted_askers : option (list string))
    (order : list string) :
  asking_order names prefs chores restricted_askers = Ok order →
  order ≡ₚ askers names restricted_askers ∧
  ∀ i j a b, (i < j)%nat → order !! i = Some a → order !! j = Some b →
    ∃ qa qb, cost_of_swap names chores prefs a a = Ok qa ∧
             cost_of_swap names chores prefs b b = Ok qb ∧ qb <= qa.
Proof.
  unfold asking_order. intros (ks & Hks & [= <-])%bind_Ok. split.
  - rewrite sort_by_key_Permutation. by erewrite asking_keys_fst.
  - intros i j a b Hij Hi Hj. rewrite list_lookup_fmap in Hi, Hj.
    destruct (sort_by_key ks !! i) as [[a' ka]|] eqn:Ei; [|done].
    destruct (sort_by_key ks !! j) as [[b' kb]|] eqn:Ej; [|done].
    simpl in Hi, Hj. injection Hi as ->. injection Hj as ->.
    pose proof (ascending_lookup _ i j _ _ (sort_by_key_ascending ks) Hij Ei Ej)
      as Hle. simpl in Hle.
    assert (∀ n k, (n, k) ∈ sort_by_key ks →
              ∃ q, cost_of_swap names chores prefs n n = Ok q ∧ k = - q) as Hkey.
    { intros n k Hin. apply (proj1 (sort_by_key_elem _ _)) in Hin.
      pose proof (asking_keys_elem _ _ _ _ _ _ _ Hks Hin) as Hk.
      unfold asking_key in Hk. apply bind_Ok in Hk as (q & Hq & [= <-]).
      apply cost_at_Ok in Hq as (c & Hc & Hq). exists q. split; [|done].
      unfold cost_of_swap. by rewrite Hc, ret_bind. }
    destruct (Hkey a ka) as (qa & Hqa & ->); [by eapply list_elem_of_lookup_2|].
    destruct (Hkey b kb) as (qb & Hqb & ->); [by eapply list_elem_of_lookup_2|].
    exists qa, qb. split; [done|]. split; [done|]. lra.
Qed.

Lemma asking_order_sorted_example :
  asking_order abc_names sample_prefs ["X"; "X"; "Wild"]%string
    (Some ["A"; "B"]%string) = Ok ["B"; "A"]%string ∧
  ["B"; "A"]%string ≡ₚ askers abc_names (Some ["A"; "B"]%string) ∧
  ∀ i j a b, (i < j)%nat → ["B"; "A"]%string !! i = Some a →
    ["B"; "A"]%string !! j = Some b →
    ∃ qa qb,
      cost_of_swap abc_names ["X"; "X"; "Wild"]%string sample_prefs a a = Ok qa ∧
      cost_of_swap abc_names ["X"; "X"; "Wild"]%string sample_prefs b b = Ok qb ∧
      qb <= qa.
Proof.
  assert (asking_order abc_names sample_prefs ["X"; "X"; "Wild"]%string
            (Some ["A"; "B"]%string) = Ok ["B"; "A"]%string) as Hrun
    by (vm_compute; reflexivity).
  split; [exact Hrun|].
  exact (asking_order_sorted _ _ _ _ _ Hrun).
Defined.

(** ** From the sheet and the answers to the final assignment *)

(** X26. A continuing week in which nobody is disturbed: when the baseline
    of [get_from_current_cycle] holds none of the weekly chores, [sad] stays
    empty, and the pairwise improvement that main asks for is started by
    everybody, not by nobody. *)
Theorem week_plan_nobody_disturbed
    (names : list string) (prefs : gmap string (gmap string Q)) (fuel : nat)
    (hist : history) (moncy : date) (chores base : list string)
    (fourweekno weekno : Z) :
  (weekno mod 4 ≠ 0)%Z →
  get_from_current_cycle hist moncy names chores = Ok base →
  (∀ c, c ∈ weekly_chores → c ∉ base) →
  initial_condition hist moncy names chores fourweekno weekno
    = Ok (base, false, []) ∧
  week_plan names prefs fuel hist moncy chores fourweekno weekno
    = improve names prefs false fuel base None.
Proof.
  intros Hcont Hbase Hquiet.
  assert (initial_condition hist moncy names chores fourweekno weekno
          = Ok (base, false, [])) as Hic.
  { unfold initial_condition, choose_baseline.
    destruct (decide (weekno mod 4 = 0)%Z) as [|_]; [done|].
    rewrite Hbase, ret_bind. cbv beta iota.
    unfold weekly_bump. by rewrite bump_chores_absent. }
  split; [done|]. unfold week_plan. by rewrite Hic.
Qed.

Lemma week_plan_nobody_disturbed_abc :
  let hist := [(Date 2020 3 30, [("A", "IB"); ("B", "IC"); ("C", "IA")]%string)] in
  (5 mod 4 ≠ 0)%Z ∧
  get_from_current_cycle hist (Date 2020 3 30) abc_names abc_chores
    = Ok ["IB"; "IC"; "IA"]%string ∧
  initial_condition hist (Date 2020 3 30) abc_names abc_chores 1 5
    = Ok (["IB"; "IC"; "IA"]%string, false, []) ∧
  week_plan abc_names abc_prefs 2 hist (Date 2020 3 30) abc_chores 1 5
    = improve abc_names abc_prefs false 2 ["IB"; "IC"; "IA"]%string None.
Proof.
  intros hist.
  assert (5 mod 4 ≠ 0)%Z as Hcont by discriminate.
  assert (get_from_current_cycle hist (Date 2020 3 30) abc_names abc_chores
          = Ok ["IB"; "IC"; "IA"]%string) as Hbase by (vm_compute; reflexivity).
  split; [exact Hcont|]. split; [exact Hbase|].
  apply (week_plan_nobody_disturbed abc_names abc_prefs 2 hist (Date 2020 3 30)
           abc_chores _ 1 5 Hcont Hbase).
  intros c Hc Hin. unfold weekly_chores in Hc.
  repeat (apply elem_of_cons in Hc as [->|Hc];
          [repeat (apply elem_of_cons in Hin as [Hin|Hin]; [discriminate Hin|]);
           by apply elem_of_nil in Hin|]).
  by apply elem_of_nil in Hc.
Defined.





(** ** improve: when nothing is to be gained *)



(** ** A week without chores *)

Lemma get_from_current_cycle_no_chores
    (hist : history) (moncy : date) (names : list string) :
  ∃ e, get_from_current_cycle hist moncy names [] = Raise e.
Proof.
  pose proof (get_from_current_cycle_finished hist moncy names []) as Hfin.
  destruct (get_from_current_cycle hist moncy names []) as [new|e|] eqn:E;
    [|by exists e|done].
  exfalso.
  pose proof E as (new_t & _ & Hlen & Hin)%get_from_current_cycle_tagged.
  destruct new_t as [|c new_t].
  - destruct names; [|done]. revert E. unfold get_from_current_cycle.
    destruct (find_cycle_start hist moncy) as [items|]; [|done].
    destruct (unzip_pairs items) as [[a b]| |]; [|done..].
    rewrite ret_bind. cbv beta iota.
    assert (filter (λ nc : string * string, nc.1 ∈ @nil string) (zip a b) = [])
      as ->; [|done].
    induction (zip a b) as [|x l IH]; [done|].
    rewrite filter_cons, decide_False; [done|]. by intros ?%elem_of_nil.
  - specialize (Hin c ltac:(by left)). by apply elem_of_nil in Hin.
Qed.

(** X29. With no chores at all, main's computation ends in a
    ZeroDivisionError, whatever the people, the week and the history: the
    rotation takes [fourweekno % 0], at the start of a cycle and after
    [get_from_current_cycle], which cannot succeed, has raised. *)
Theorem week_plan_no_chores
    (names : list string) (prefs : gmap string (gmap string Q)) (fuel : nat)
    (hist : history) (moncy : date) (fourweekno weekno : Z) :
  week_plan names prefs fuel hist moncy [] fourweekno weekno
    = Raise ZeroDivisionError.
Proof.
  unfold week_plan, initial_condition, choose_baseline.
  destruct (decide (weekno mod 4 = 0)%Z); [done|].
  by destruct (get_from_current_cycle_no_chores hist moncy names) as [e ->].
Qed.
